(** * A command-line to-do list: date validation, record store, persistence

    Shallow embedding of [main.cpp].  Text is a list of characters, the
    C [int] values the program computes with are integers of [Z], the task
    vector is a list addressed through stdpp's lookup, alter, insert and
    delete, and the interactive operations run in a small state monad over
    the global task list, the standard input and the standard output. *)

From Stdlib Require Import ZArith Ascii String Lia.
From stdpp Require Import base tactics option list numbers strings.

Open Scope Z_scope.

(** ** Text *)

Abbreviation text := (list ascii).

Definition str (s : string) : text := list_ascii_of_string s.
Arguments str s%_string : simpl never.

Definition code (c : ascii) : Z := Z.of_N (N_of_ascii c).

(** [isspace] and [isdigit] of the C locale. *)
Definition isspace (c : ascii) : bool :=
  (code c =? 32) || ((9 <=? code c) && (code c <=? 13)).

Definition isdigit (c : ascii) : bool :=
  (48 <=? code c) && (code c <=? 57).

Definition digit_val (c : ascii) : Z := code c - 48.

Definition digit_char (d : Z) : ascii := ascii_of_N (Z.to_N (48 + d)).

Definition dquote : ascii := "034"%char.
Definition newline : ascii := "010"%char.

(** ** The C [int] *)

Definition INT_MIN : Z := - 2 ^ 31.
Definition INT_MAX : Z := 2 ^ 31 - 1.

Definition in_int (n : Z) : Prop := INT_MIN <= n <= INT_MAX.

(** Low 32 bits, read as a signed number: one way a C library stores a
    conversion result that does not fit. *)
Definition wrap_int (n : Z) : Z := (n + 2 ^ 31) mod 2 ^ 32 - 2 ^ 31.

(** ** Decimal scanning and printing *)

Fixpoint skip_space (s : text) : text :=
  match s with
  | c :: s' => if isspace c then skip_space s' else s
  | [] => []
  end.

(** The longest run of digits at the front of [s], most significant digit
    first, accumulated onto [acc]. *)
Fixpoint scan_digits (acc : Z) (s : text) : Z * text :=
  match s with
  | c :: s' =>
      if isdigit c then scan_digits (10 * acc + digit_val c) s' else (acc, s)
  | [] => (acc, [])
  end.

(** An optionally signed decimal number: the subject sequence of
    [strtol] in base 10 and of [num_get] for a decimal [int].  A sign that
    no digit follows converts nothing. *)
Definition scan_decimal (s : text) : option (Z * text) :=
  let '(neg, s1) :=
    match s with
    | "-"%char :: s' => (true, s')
    | "+"%char :: s' => (false, s')
    | _ => (false, s)
    end in
  match s1 with
  | c :: _ =>
      if isdigit c
      then let '(n, rest) := scan_digits 0 s1 in
           Some (if neg then - n else n, rest)
      else None
  | [] => None
  end.

(** [operator<<] of an [int] with the default flags: decimal digits, no
    padding, a minus sign for a negative number.  [fuel] bounds the number
    of digits after the first. *)
Fixpoint to_digits (fuel : nat) (n : Z) (acc : text) : text :=
  let acc' := digit_char (n mod 10) :: acc in
  match fuel with
  | O => acc'
  | S fuel' => if n <? 10 then acc' else to_digits fuel' (n / 10) acc'
  end.

Definition print_nat (n : Z) : text := to_digits (Z.to_nat (Z.log2 n)) n [].

Definition print_int (n : Z) : text :=
  if n <? 0 then "-"%char :: print_nat (- n) else print_nat n.

(** [result << day << "/" << month << "/" << year] *)
Definition join_date (day month year : Z) : text :=
  print_int day ++ str "/" ++ print_int month ++ str "/" ++ print_int year.

(** ** Task records *)

Record TodoItem := {
  title : text;
  description : text;
  due_date : text;
  completed : bool
}.

Abbreviation TodoItems := (list TodoItem).

(** ** Persistence codec *)

(** [fout << item.completed]: a [bool] is written as the digit 1 or 0. *)
Definition print_bool (b : bool) : text := if b then str "1" else str "0".

(** One iteration of the loop of [save_data]: the four quoted fields,
    then [endl]. *)
Definition record_line (item : TodoItem) : text :=
  [dquote] ++ title item ++ [dquote; ","%char]
  ++ [dquote] ++ description item ++ [dquote; ","%char]
  ++ [dquote] ++ due_date item ++ [dquote; ","%char]
  ++ [dquote] ++ print_bool (completed item) ++ [dquote].

Definition save_line (item : TodoItem) : text :=
  record_line item ++ [newline].

(** [void save_data()]: the text written to the save file. *)
Definition save_data (items : TodoItems) : text :=
  concat (save_line <$> items).

(** The regular expressions the program uses: a sequence of single
    characters and of capturing groups that take any number of characters
    other than a given one. *)
Inductive rx :=
  | RChar (c : ascii)
  | RGroupNot (c : ascii).

(** The group of characters other than [c], followed by the continuation
    [k], with the backtracking order of ECMAScript: the star is greedy, it
    takes one more character first and gives characters back only when
    the rest of the pattern fails.  The result is the text the group
    captured and what [k] returned. *)
Fixpoint rx_group {A} (c : ascii) (k : text → option A) (s : text)
    : option (text * A) :=
  match s with
  | x :: s' =>
      if bool_decide (x = c) then pair [] <$> k s
      else
        match rx_group c k s' with
        | Some (g, r) => Some (x :: g, r)
        | None => pair [] <$> k s
        end
  | [] => pair [] <$> k []
  end.

(** A match of the pattern [p] that starts at the front of [s]: the
    captured groups in order, and the input left after the match. *)
Fixpoint match_here (p : list rx) (s : text) : option (list text * text) :=
  match p with
  | [] => Some ([], s)
  | RChar c :: p' =>
      match s with
      | x :: s' => if bool_decide (x = c) then match_here p' s' else None
      | [] => None
      end
  | RGroupNot c :: p' =>
      match rx_group c (match_here p') s with
      | Some (g, (gs, rest)) => Some (g :: gs, rest)
      | None => None
      end
  end.

(** [regex_search(s, matches, p)]: the leftmost match.  The result is the
    content of [matches]: the whole match followed by the groups, or
    nothing when no position of [s] matches. *)
Fixpoint regex_search (p : list rx) (s : text) : list text :=
  match match_here p s with
  | Some (gs, rest) => take (length s - length rest) s :: gs
  | None =>
      match s with
      | _ :: s' => regex_search p s'
      | [] => []
      end
  end.

(** [matches.str(n)]: the empty string for a sub-match that does not
    exist. *)
Definition sub_str (matches : list text) (n : nat) : text := nth n matches [].

(** The pattern of [retrieve_data]: four fields separated by commas, each
    a double quote, a group of characters other than the double quote, and
    a double quote. *)
Definition pattern : list rx :=
  [RChar dquote; RGroupNot dquote; RChar dquote; RChar ","%char;
   RChar dquote; RGroupNot dquote; RChar dquote; RChar ","%char;
   RChar dquote; RGroupNot dquote; RChar dquote; RChar ","%char;
   RChar dquote; RGroupNot dquote; RChar dquote].

(** The body of the loop of [retrieve_data]: the match is not checked. *)
Definition parse_line (line : text) : TodoItem :=
  let matches := regex_search pattern line in
  {| title := sub_str matches 1;
     description := sub_str matches 2;
     due_date := sub_str matches 3;
     completed := bool_decide (sub_str matches 4 = str "1") |}.

(** The characters up to the next newline, which is consumed, or up to
    the end of the file, and what is left of the file. *)
Fixpoint read_line (s : text) : text * text :=
  match s with
  | [] => ([], [])
  | c :: s' =>
      if bool_decide (c = newline) then ([], s')
      else let '(l, rest) := read_line s' in (c :: l, rest)
  end.

(** [getline(file, line)] on the unread part of the file: it fails at the
    end of the file and reads a line otherwise. *)
Definition file_getline (s : text) : option (text * text) :=
  match s with
  | [] => None
  | _ => Some (read_line s)
  end.

(** [while (getline(file, line)) { ... items.push_back(item); }]; every
    line read takes at least one character, so [fuel] above the length of
    the file is never used up. *)
Fixpoint retrieve_loop (fuel : nat) (file : text) (items : TodoItems)
    : TodoItems :=
  match fuel with
  | O => items
  | S fuel' =>
      match file_getline file with
      | None => items
      | Some (line, rest) => retrieve_loop fuel' rest (items ++ [parse_line line])
      end
  end.

(** [TodoItems retrieve_data()]; [file] is the content of the save file,
    [None] when the file does not exist: the stream then fails to open and
    the first [getline] already fails. *)
Definition retrieve_data (file : option text) : TodoItems :=
  match file with
  | None => []
  | Some s => retrieve_loop (S (length s)) s []
  end.

(** ** Date validator *)

(** [bool is_leap_year(int year)]; [%] of C is the remainder of the
    division that truncates towards zero. *)
Definition is_leap_year (year : Z) : bool :=
  if year `rem` 400 =? 0 then true
  else if negb (year `rem` 100 =? 0) && (year `rem` 4 =? 0) then true
  else false.

Definition days_in_month : list Z :=
  [31; 28; 31; 30; 31; 30; 31; 31; 30; 31; 30; 31].

(** ** The interactive state *)

(** The global task vector and the two standard streams.  [cin] is the
    unread input, one element per line without its newline; the first
    element is what is left of the line being read.  The input reaches the
    program line by line, so every line ends with a newline and the end of
    the list is the end of the input.  [failbit] is the error state of
    [cin]: while it is set every read does nothing.  [cout] is the list of
    the chunks written, one per output statement, without the line ends. *)
Record world := {
  todo_items : TodoItems;
  cin : list text;
  failbit : bool;
  cout : list text
}.

Definition set_items (items : TodoItems) (w : world) : world :=
  {| todo_items := items; cin := cin w; failbit := failbit w; cout := cout w |}.
Definition set_cin (ls : list text) (w : world) : world :=
  {| todo_items := todo_items w; cin := ls; failbit := failbit w; cout := cout w |}.
Definition set_failbit (b : bool) (w : world) : world :=
  {| todo_items := todo_items w; cin := cin w; failbit := b; cout := cout w |}.
Definition set_cout (out : list text) (w : world) : world :=
  {| todo_items := todo_items w; cin := cin w; failbit := failbit w; cout := out |}.

(** What the program does beyond returning: index a vector outside its
    bounds, or read a variable that was never written. *)
Inductive fault := OutOfRange | Uninitialised.

(** A call returns [a] in the state [w], or never returns because the
    input ran out inside a loop that waits for an acceptable line, or has
    undefined behaviour.  A call that never returns goes on writing its
    prompt for ever; what it leaves behind is the task list, [items]. *)
Inductive outcome (A : Type) :=
  | Ok (a : A) (w : world)
  | Hang (items : TodoItems)
  | Fault (f : fault).
Arguments Ok {A} a w.
Arguments Hang {A} items.
Arguments Fault {A} f.

Definition io (A : Type) : Type := world → outcome A.

Definition ret {A} (a : A) : io A := λ w, Ok a w.

Definition bind {A B} (m : io A) (k : A → io B) : io B := λ w,
  match m w with
  | Ok a w' => k a w'
  | Hang items => Hang items
  | Fault e => Fault e
  end.

Declare Scope io_scope.
Delimit Scope io_scope with io.
Bind Scope io_scope with io.
Notation "x ← y ; z" := (bind y (λ x, z))
  (at level 20, y at level 100, z at level 200, only parsing) : io_scope.
Notation "x ;; z" := (bind x (λ _, z))
  (at level 100, z at level 200, only parsing, right associativity) : io_scope.
Open Scope io_scope.

Definition hang {A} : io A := λ w, Hang (todo_items w).
Definition undefined {A} (e : fault) : io A := λ _, Fault e.

(** [cout << ...] *)
Definition print (s : text) : io unit := λ w,
  Ok () (set_cout (cout w ++ [s]) w).

(** [if (cin)] *)
Definition good : io bool := λ w, Ok (negb (failbit w)) w.

(** [cin.clear()] *)
Definition clear : io unit := λ w, Ok () (set_failbit false w).

(** [cin.ignore(INT_MAX, '\n')]: the rest of the current line is dropped,
    unless the stream has failed. *)
Definition ignore_line : io unit := λ w,
  if failbit w then Ok () w else Ok () (set_cin (tail (cin w)) w).

(** [getline(cin, s)], where [old] is the value of [s] before the call: a
    failed stream leaves [s] as it is, the end of the input gives the
    empty string and sets the error state. *)
Definition getline (old : text) : io text := λ w,
  if failbit w then Ok old w
  else
    match cin w with
    | l :: rest => Ok l (set_cin rest w)
    | [] => Ok [] (set_failbit true w)
    end.

(** The white space a formatted extraction skips first; newlines are
    white space, so lines of blanks are passed over. *)
Fixpoint skip_lines (ls : list text) : list text :=
  match ls with
  | l :: rest =>
      match skip_space l with
      | [] => skip_lines rest
      | l' => l' :: rest
      end
  | [] => []
  end.

Definition in_int_b (n : Z) : bool := (INT_MIN <=? n) && (n <=? INT_MAX).

(** [cin >> input_num] for an [int]: [Some n] when a number was
    extracted; otherwise the error state is set and no value the program
    reads is stored.  A number that does not fit an [int] fails as well. *)
Definition extract_int : io (option Z) := λ w,
  if failbit w then Ok None w
  else
    match skip_lines (cin w) with
    | [] => Ok None (set_failbit true (set_cin [] w))
    | l :: rest =>
        match scan_decimal l with
        | Some (n, l') =>
            if in_int_b n then Ok (Some n) (set_cin (l' :: rest) w)
            else Ok None (set_failbit true (set_cin (l' :: rest) w))
        | None => Ok None (set_failbit true (set_cin (l :: rest) w))
        end
    end.

(** [cin >> choice] for a [char]: the first character that is not white
    space; at the end of the input [choice] is left unwritten. *)
Definition extract_char : io (option ascii) := λ w,
  if failbit w then Ok None w
  else
    match skip_lines (cin w) with
    | [] => Ok None (set_failbit true (set_cin [] w))
    | [] :: rest => Ok None (set_failbit true (set_cin [] w))
    | (c :: l) :: rest => Ok (Some c) (set_cin (l :: rest) w)
    end.

(** [todo_items.size()] *)
Definition vec_size : io Z := λ w, Ok (Z.of_nat (length (todo_items w))) w.

(** The conversion of an [int] to [size_t] in a comparison with
    [size()]. *)
Definition size_t_of_int (n : Z) : Z := n mod 2 ^ 64.

Definition in_bounds (i : Z) (items : TodoItems) : bool :=
  (0 <=? i) && (i <? Z.of_nat (length items)).

(** [todo_items[i]], read. *)
Definition at_index (i : Z) : io TodoItem := λ w,
  if in_bounds i (todo_items w)
  then match todo_items w !! Z.to_nat i with
       | Some item => Ok item w
       | None => Fault OutOfRange
       end
  else Fault OutOfRange.

(** [todo_items[i] = item] *)
Definition assign_index (i : Z) (item : TodoItem) : io unit := λ w,
  if in_bounds i (todo_items w)
  then Ok () (set_items (<[Z.to_nat i := item]> (todo_items w)) w)
  else Fault OutOfRange.

Definition with_completed (b : bool) (item : TodoItem) : TodoItem :=
  {| title := title item; description := description item;
     due_date := due_date item; completed := b |}.

(** [todo_items[i].completed = b] *)
Definition assign_completed (i : Z) (b : bool) : io unit := λ w,
  if in_bounds i (todo_items w)
  then Ok () (set_items (alter (with_completed b) (Z.to_nat i) (todo_items w)) w)
  else Fault OutOfRange.

(** [todo_items.erase(todo_items.begin() + i)] *)
Definition erase (i : Z) : io unit := λ w,
  if in_bounds i (todo_items w)
  then Ok () (set_items (delete (Z.to_nat i) (todo_items w)) w)
  else Fault OutOfRange.

(** [todo_items.push_back(item)] *)
Definition push_back (item : TodoItem) : io unit := λ w,
  Ok () (set_items (todo_items w ++ [item]) w).

(** The prompt of [get_item_position]. *)
Definition prompt (action : text) : text :=
  str "Enter task number to " ++ action ++ str " (0 to abort operation): ".

(** [int get_item_position(string action)].  An iteration that does not
    return drops at least one line of the input, or finds none left and
    then fails for ever: [fuel] above the number of lines is used up only
    in that endless loop. *)
Fixpoint get_item_position_loop (fuel : nat) (action : text) : io Z :=
  match fuel with
  | O => hang
  | S fuel' =>
      print (prompt action);;
      input_num ← extract_int;
      ignore_line;;
      ok ← good;
      if ok then
        match input_num with
        | None => undefined Uninitialised
        | Some input_num =>
            if input_num =? 0 then
              print (str "Abort task.");;
              ret (-1)
            else
              size ← vec_size;
              if (1 <=? input_num) && (size_t_of_int input_num <=? size)
              then ret (input_num - 1)
              else
                print (str "Task number is out of range.");;
                get_item_position_loop fuel' action
        end
      else
        clear;;
        ignore_line;;
        print (str "What you've entered is not a number.");;
        get_item_position_loop fuel' action
  end.

Definition get_item_position (action : text) : io Z := λ w,
  get_item_position_loop (S (length (cin w))) action w.

(** [void mark()] *)
Definition mark : io unit :=
  item_position ← get_item_position (str "mark");
  if item_position =? -1 then ret ()
  else
    item ← at_index item_position;
    if completed item then print (str "Task is already marked as completed.")
    else
      assign_completed item_position true;;
      print (str "Task marked as completed.").

(** The question of [remove]. *)
Definition confirm_text (item : TodoItem) : text :=
  str "Confirm to delete " ++ [dquote] ++ title item ++ [dquote]
  ++ str "? [y/n]: ".

(** [void remove()] *)
Definition remove : io unit :=
  item_position ← get_item_position (str "remove");
  if item_position =? -1 then ret ()
  else
    item ← at_index item_position;
    print (confirm_text item);;
    choice ← extract_char;
    match choice with
    | None => undefined Uninitialised
    | Some choice =>
        (if bool_decide (choice = "y"%char) || bool_decide (choice = "Y"%char)
         then erase item_position;; print (str "Task deleted successfully.")
         else print (str "Delete operation cancelled."));;
        ignore_line
    end.

(** ** Notions the statements use *)

(** What a call started in the state [w] establishes: [Q] of the value
    and the state when it returns, [H] of the task list when it never
    returns, [F] of the fault when its behaviour is undefined. *)
Definition post {A} (m : io A) (w : world)
    (Q : A → world → Prop) (H : TodoItems → Prop) (F : fault → Prop) : Prop :=
  match m w with
  | Ok a w' => Q a w'
  | Hang items => H items
  | Fault e => F e
  end.

Definition no_fault : fault → Prop := λ _, False.

(** The text of [n] lines, each ended by a newline. *)
Definition unlines (lines : list text) : text :=
  concat ((λ l, l ++ [newline]) <$> lines).

(** The lines of a file as successive calls of [getline] return them:
    a newline ends a line, and what follows the last newline is a line
    when it is not empty. *)
Fixpoint file_lines (s : text) : list text :=
  match s with
  | [] => []
  | c :: s' =>
      if bool_decide (c = newline) then [] :: file_lines s'
      else
        match file_lines s' with
        | l :: ls => (c :: l) :: ls
        | [] => [[c]]
        end
  end.

(** The record the parser builds from a line without a match. *)
Definition empty_item : TodoItem :=
  {| title := []; description := []; due_date := []; completed := false |}.

Definition free_of (c : ascii) (s : text) : Prop := c ∉ s.

(** No field of the record holds a double quote. *)
Definition quote_free (item : TodoItem) : Prop :=
  free_of dquote (title item) ∧ free_of dquote (description item)
  ∧ free_of dquote (due_date item).

(** No field of the record holds a newline. *)
Definition newline_free (item : TodoItem) : Prop :=
  free_of newline (title item) ∧ free_of newline (description item)
  ∧ free_of newline (due_date item).

#[global] Instance free_of_dec c s : Decision (free_of c s).
Proof. unfold free_of. apply _. Defined.
#[global] Instance quote_free_dec item : Decision (quote_free item).
Proof. unfold quote_free. apply _. Defined.
#[global] Instance newline_free_dec item : Decision (newline_free item).
Proof. unfold newline_free. apply _. Defined.

(** What one iteration of the loop of [get_item_position] finds on the
    input: a number that fits an [int], or anything else (also the end of
    the input), and the lines left once the iteration has dropped the rest
    of the line. *)
Inductive entry :=
  | Number (n : Z) (rest : list text)
  | NotNumber (rest : list text).

Definition next_entry (w : world) : entry :=
  if failbit w then NotNumber (tail (cin w))
  else
    match skip_lines (cin w) with
    | [] => NotNumber []
    | l :: rest =>
        match scan_decimal l with
        | Some (n, _) => if in_int_b n then Number n rest else NotNumber rest
        | None => NotNumber rest
        end
    end.

(** What [cin >> choice] finds after the lines [ls] were left: the first
    character that is not white space, and the lines left once the rest
    of its line is dropped. *)
Definition next_char (ls : list text) : option (ascii * list text) :=
  match skip_lines ls with
  | (c :: _) :: rest => Some (c, rest)
  | _ => None
  end.

(** The test of [remove] on the character read. *)
Definition confirms (c : ascii) : bool :=
  bool_decide (c = "y"%char) || bool_decide (c = "Y"%char).

(** The state after an iteration that left the lines [rest] and wrote the
    chunks [out]. *)
Definition after_entry (rest : list text) (out : list text) (w : world)
    : world :=
  {| todo_items := todo_items w; cin := rest; failbit := false;
     cout := cout w ++ out |}.

(** The record store of the specification: external positions count from
    one, and marking has three results.  A record newly marked keeps its
    title, description and due date, and its flag is true. *)
Inductive mark_result := AlreadyCompleted | Marked | NotFound.

Definition spec_marked (item : TodoItem) : TodoItem :=
  {| title := title item; description := description item;
     due_date := due_date item; completed := true |}.

Definition spec_mark_completed (items : TodoItems) (position : Z)
    : mark_result * TodoItems :=
  if (1 <=? position) && (position <=? Z.of_nat (length items)) then
    match items !! Z.to_nat (position - 1) with
    | Some item =>
        if completed item then (AlreadyCompleted, items)
        else (Marked, <[Z.to_nat (position - 1) := spec_marked item]> items)
    | None => (NotFound, items)
    end
  else (NotFound, items).

(** A decimal number without padding: digits only, at least one, and
    no zero in front. *)
Definition unpadded (s : text) : Prop :=
  Forall (λ c, isdigit c = true) s ∧ s ≠ [] ∧ head s ≠ Some "0"%char.

(** Days in a month as the specification words them. *)
Definition spec_days_in_month (month year : Z) : Z :=
  if month =? 2 then (if is_leap_year year then 29 else 28)
  else nth (Z.to_nat (month - 1)) [31; 28; 31; 30; 31; 30; 31; 31; 30; 31; 30; 31] 0.

(** A confirmation that is the word yes, whatever the case of its
    letters. *)
Definition lower (c : ascii) : ascii :=
  if (65 <=? code c) && (code c <=? 90)
  then ascii_of_N (Z.to_N (code c + 32)) else c.

Definition is_yes (line : text) : bool :=
  bool_decide (lower <$> line = str "yes").

(** ** Sample data *)

Definition milk : TodoItem :=
  {| title := str "Buy milk"; description := str "2%";
     due_date := str "5/3/2025"; completed := false |}.

Definition taxes : TodoItem :=
  {| title := str "Taxes, forms"; description := [];
     due_date := str "29/2/2024"; completed := true |}.

Definition call : TodoItem :=
  {| title := str "Call"; description := str "the bank";
     due_date := str "1/12/2026"; completed := false |}.

Definition session (items : TodoItems) (lines : list text) : world :=
  {| todo_items := items; cin := lines; failbit := false; cout := [] |}.

(** A session at the keyboard: one task is added, then the exit. *)
Definition errand : list text :=
  [str "1"; str "Call"; str "the bank"; str "1 /12/ 2026"; [];
   str "6"; []].

(** ** Further notions *)

(** White space only. *)
Definition blank (s : text) : Prop := Forall (λ c, isspace c = true) s.

(** Text that does not begin with a digit. *)
Definition no_digit_ahead (s : text) : Prop :=
  ∀ c tl, s = c :: tl → isdigit c = false.

(** ** Viewing *)

(** [printf("%-3d", n)]: the number, then blanks up to a width of three
    characters. *)
Definition printf_d3 (n : Z) : text :=
  print_int n ++ replicate (3 - length (print_int n)) " "%char.

(** The loop of [view]; [count] is the counter the loop increments.  It
    is an [int], and stays one while the list has fewer than 2^31
    records.  [printf] and [cout] write to the same synchronised standard
    output, so their chunks are kept in one list. *)
Fixpoint view_loop (items : TodoItems) (count : Z) : io unit :=
  match items with
  | [] => ret ()
  | item :: items' =>
      print [];;
      print (printf_d3 count);;
      print (str "Title: " ++ title item);;
      print (str "   Desc: " ++ description item);;
      print (str "   Due Date: " ++ due_date item);;
      print (str "   Completed: "
             ++ (if completed item then str "Yes" else str "No"));;
      view_loop items' (count + 1)
  end.

(** [void view()] *)
Definition view : io unit := λ w,
  (print (str "All Tasks");;
   view_loop (todo_items w) 1) w.

(** What [view] writes for the record at index [i]. *)
Definition view_block (i : nat) (item : TodoItem) : list text :=
  [[]; printf_d3 (Z.of_nat i + 1);
   str "Title: " ++ title item;
   str "   Desc: " ++ description item;
   str "   Due Date: " ++ due_date item;
   str "   Completed: " ++ (if completed item then str "Yes" else str "No")].

(** Linear arithmetic with division and remainder by a constant. *)
Ltac div_lia := Z.div_mod_to_equations; lia.

Section Program.

(** The value [sscanf] stores for a [%d] whose digits denote [n].  The C
    standard fixes it only when [n] fits an [int]; otherwise the behaviour
    is undefined and C libraries differ, so the conversion is a parameter
    of the development: what is stored is an [int], and it is [n] whenever
    [n] is one. *)
Variable int_conv : Z → Z.
Hypothesis int_conv_range : ∀ n, in_int (int_conv n).
Hypothesis int_conv_exact : ∀ n, in_int n → int_conv n = n.

(** The directive [%d]: white space is skipped, then a decimal number is
    converted. *)
Definition conv_d (s : text) : option (Z * text) :=
  match scan_decimal (skip_space s) with
  | Some (n, rest) => Some (int_conv n, rest)
  | None => None
  end.

(** The directives [ /]: any amount of white space, then a slash. *)
Definition lit_slash (s : text) : option text :=
  match skip_space s with
  | "/"%char :: rest => Some rest
  | _ => None
  end.

(** [sscanf(date_str.c_str(), "%d /%d /%d", &day, &month, &year)]: the
    value returned and the values stored, in the order of the pointers.
    The return value is the number of conversions, or [EOF] (-1) when the
    input ends before the first one.  A NUL character inside [date_str]
    ends the C string; it is neither white space, a sign, a digit nor a
    slash, so the scan stops at it in the same way. *)
Definition sscanf_date (s : text) : Z * list Z :=
  match conv_d s with
  | None => (if skip_space s is [] then -1 else 0, [])
  | Some (day, s1) =>
      match lit_slash s1 ≫= conv_d with
      | None => (1, [day])
      | Some (month, s2) =>
          match lit_slash s2 ≫= conv_d with
          | None => (2, [day; month])
          | Some (year, _) => (3, [day; month; year])
          end
      end
  end.

(** [bool is_valid_date(string date_str)]. *)
Definition is_valid_date (date_str : text) : bool :=
  let '(matches, vals) := sscanf_date date_str in
  if negb (matches =? 3) then false
  else
    match vals with
    | [day; month; year] =>
        if year <? 1 then false
        else if (month <? 1) || (month >? 12) then false
        else if day <? 1 then false
        else if (month =? 2) && is_leap_year year
        then (if day >? 29 then false else true)
        else (if day >? nth (Z.to_nat (month - 1)) days_in_month 0
              then false else true)
    | _ => false
    end.

(** [string get_date_input()].  The loop reads one line per iteration;
    once the input is exhausted [getline] fails for ever and the empty
    string it leaves is never a valid date. *)
Fixpoint get_date_loop (fuel : nat) (date_str : text) : io text :=
  match fuel with
  | O => hang
  | S fuel' =>
      date_str ← getline date_str;
      if is_valid_date date_str then ret date_str
      else
        print (str "Please enter a valid date: ");;
        get_date_loop fuel' date_str
  end.

(** The second [sscanf] of [get_date_input] and the concatenation. *)
Definition canonical_date (date_str : text) : option text :=
  match snd (sscanf_date date_str) with
  | [day; month; year] => Some (join_date day month year)
  | _ => None
  end.

Definition get_date_input : io text := λ w,
  (date_str ← get_date_loop (S (length (cin w))) [];
   match canonical_date date_str with
   | Some result => ret result
   | None => undefined Uninitialised
   end) w.

(** [void add()] *)
Definition add : io unit :=
  print (str "Enter task details (Empty to abort operation): ");;
  print (str "Title: ");;
  title ← getline [];
  if title is [] then print (str "Abort task.")
  else
    print (str "Description: ");;
    description ← getline [];
    print (str "Due Date (DD/MM/YYYY): ");;
    due_date ← get_date_input;
    push_back {| title := title; description := description;
                 due_date := due_date; completed := false |};;
    print (str "Task added successfully").

(** [void edit()]; [task] is a copy of the vector element. *)
Definition edit : io unit :=
  item_position ← get_item_position (str "edit");
  if item_position =? -1 then ret ()
  else
    task ← at_index item_position;
    print (str "Enter task details (Empty to abort operation): ");;
    print (str "Title (was " ++ title task ++ str "): ");;
    new_title ← getline (title task);
    if new_title is [] then print (str "Abort task.")
    else
      print (str "Description: (was " ++ description task ++ str "): ");;
      new_description ← getline (description task);
      print (str "Due Date (DD/MM/YYYY, was " ++ due_date task ++ str "): ");;
      new_due_date ← get_date_input;
      assign_index item_position
        {| title := new_title; description := new_description;
           due_date := new_due_date; completed := completed task |};;
      print (str "Task edited successfully").

(** What [get_date_input] returns: the canonical text of a line that
    passed the validation. *)
Definition from_valid (result : text) : Prop :=
  ∃ date_str, is_valid_date date_str = true
    ∧ canonical_date date_str = Some result.

(** A due date as the program stores it: a valid date that the
    canonical rewriting leaves as it is. *)
Definition date_ok (s : text) : Prop :=
  is_valid_date s = true ∧ canonical_date s = Some s.

Definition dates_ok (items : TodoItems) : Prop :=
  Forall (λ item, date_ok (due_date item)) items.

(** ** The main loop *)

(** [system(CLEAR_SCREEN)]: an external command clears the terminal; the
    task list and the streams of the program are not touched. *)
Definition system_clear : io unit := ret ().

(** [command >= '1' && command <= '6'] *)
Definition in_menu (command : ascii) : bool :=
  (code "1" <=? code command) && (code command <=? code "6").

(** The inner loop of [main].  [command] is the variable of that name,
    [None] while nothing was stored in it: a failed extraction leaves it
    as it is.  An iteration that does not leave the loop either dropped a
    line or found the stream failed, and then nothing changes any more. *)
Fixpoint read_command (fuel : nat) (command : option ascii) : io ascii :=
  match fuel with
  | O => hang
  | S fuel' =>
      extracted ← extract_char;
      ignore_line;;
      match (if extracted is Some c then Some c else command) with
      | None => undefined Uninitialised
      | Some command =>
          if in_menu command then ret command
          else
            print (str "Invalid input. Please enter a number within range 1-6: ");;
            read_command fuel' (Some command)
      end
  end.

(** [save_data()] as [main] calls it: the text written to the save file
    from the task list.  The file is taken to open for writing. *)
Definition write_save_file : io text := λ w, Ok (save_data (todo_items w)) w.

(** The cases 1 to 5 of the switch of [main]. *)
Definition run_command (command : ascii) : io unit :=
  if bool_decide (command = "1"%char) then add
  else if bool_decide (command = "2"%char) then view
  else if bool_decide (command = "3"%char) then mark
  else if bool_decide (command = "4"%char) then edit
  else if bool_decide (command = "5"%char) then remove
  else ret ().

(** The outer loop of [main]; the value returned is the exit code and the
    content of the save file written on the way out. *)
Fixpoint main_loop (fuel : nat) (command : option ascii) : io (Z * text) :=
  match fuel with
  | O => hang
  | S fuel' =>
      print (str "-To Do List-");;
      print (str "1. Add Task");;
      print (str "2. View Tasks");;
      print (str "3. Mark Task as Completed");;
      print (str "4. Edit Task");;
      print (str "5. Delete Task");;
      print (str "6. Exit");;
      print (str "Enter a number 1-6: ");;
      command ← (λ w, read_command (S (length (cin w))) command w);
      print [];;
      system_clear;;
      if bool_decide (command = "6"%char) then
        saved ← write_save_file;
        print (str "Thanks for using the application, have a nice day!");;
        print (str "Press enter to exit ...");;
        ignore_line;;
        system_clear;;
        ret (0, saved)
      else
        run_command command;;
        print (newline :: str "Press enter to continue ...");;
        ignore_line;;
        system_clear;;
        main_loop fuel' (Some command)
  end.

(** [int main()], started with the save file [file] ([None] when there is
    none) and the lines [input] on the standard input. *)
Definition main (file : option text) (input : list text)
    : outcome (Z * text) :=
  (system_clear;;
   main_loop (S (length input)) None)
    {| todo_items := retrieve_data file; cin := input; failbit := false;
       cout := [] |}.

(** ** Invariants of a session *)

(** A line without double quote and newline. *)
Definition clean_line (l : text) : Prop :=
  free_of dquote l ∧ free_of newline l.

(** A task list without double quote and newline in any field. *)
Definition clean_items (items : TodoItems) : Prop :=
  Forall quote_free items ∧ Forall newline_free items.

(** A state whose task list satisfies [Items] and whose unread input
    satisfies [Lines]; a stream that has failed in it has no input left. *)
Definition inv (Items : TodoItems → Prop) (Lines : list text → Prop)
    (w : world) : Prop :=
  Items (todo_items w) ∧ Lines (cin w) ∧ (failbit w = true → cin w = []).

(** Started where [P] holds, [m] returns where [Q] holds or never returns
    with a task list in [J]; the only undefined behaviour it may have is
    the read of a variable that was never written. *)
Definition triple {A} (J : TodoItems → Prop) (P : world → Prop) (m : io A)
    (Q : A → world → Prop) : Prop :=
  ∀ w, P w → post m w Q J (λ e, e = Uninitialised).

(** What [Items], [Lines] and [Field] must allow for [inv] to hold
    throughout a session: reading consumes lines from the front, a title
    or a description is a line read, the empty text or a field of a record
    of the list, a due date comes from [get_date_input], and the list
    changes by appending, replacing, completing or deleting a record. *)
Record closed (Items : TodoItems → Prop) (Lines : list text → Prop)
    (Field : text → Prop) : Prop := {
  closed_nil : Lines [];
  closed_tail : ∀ l ls, Lines (l :: ls) → Lines ls;
  closed_suffix : ∀ l l' ls, Lines (l :: ls) → l' `suffix_of` l → Lines (l' :: ls);
  closed_line : ∀ l ls, Lines (l :: ls) → Field l;
  closed_empty : Field [];
  closed_field : ∀ items item,
    Items items → item ∈ items →
    Field (title item) ∧ Field (description item);
  closed_push : ∀ items t d r,
    Items items → Field t → Field d → from_valid r →
    Items (items ++ [{| title := t; description := d; due_date := r;
                        completed := false |}]);
  closed_assign : ∀ items i old t d r,
    Items items → items !! i = Some old → Field t → Field d → from_valid r →
    Items (<[i := {| title := t; description := d; due_date := r;
                     completed := completed old |}]> items);
  closed_complete : ∀ items i b,
    Items items → Items (alter (with_completed b) i items);
  closed_delete : ∀ items i, Items items → Items (delete i items)
}.

(** A call that leaves the task list as it is whenever it returns. *)
Definition keeps_items {A} (m : io A) : Prop :=
  ∀ w, post m w (λ _ w', todo_items w' = todo_items w) (λ _, True)
         (λ _, True).

(** The state in which [main] enters its loop. *)
Definition initial (file : option text) (input : list text) : world :=
  {| todo_items := retrieve_data file; cin := input; failbit := false;
     cout := [] |}.

(** The menu, as the chunks [main] writes before it reads a command. *)
Definition menu : list text :=
  [str "-To Do List-"; str "1. Add Task"; str "2. View Tasks";
   str "3. Mark Task as Completed"; str "4. Edit Task";
   str "5. Delete Task"; str "6. Exit"; str "Enter a number 1-6: "].

(** The state [ignore_line] leaves. *)
Definition drop_line (w : world) : world :=
  if failbit w then w else set_cin (tail (cin w)) w.

(** Input with fewer than [n] lines, or none. *)
Definition shorter (n : nat) (ls : list text) : Prop :=
  ls = [] ∨ (length ls < n)%nat.

(** * Properties *)

(** ** Characters and decimal numbers *)

Lemma digit_char_facts d :
  0 <= d <= 9 →
  isdigit (digit_char d) = true ∧ digit_val (digit_char d) = d
  ∧ isspace (digit_char d) = false
  ∧ digit_char d ≠ "-"%char ∧ digit_char d ≠ "+"%char.
Proof.
  intros Hd.
  assert (d = 0 ∨ d = 1 ∨ d = 2 ∨ d = 3 ∨ d = 4 ∨ d = 5 ∨ d = 6 ∨ d = 7
          ∨ d = 8 ∨ d = 9) as Hcases by lia.
  repeat (destruct Hcases as [-> | Hcases]); try subst d;
    (split_and!; [reflexivity | reflexivity | reflexivity | discriminate | discriminate]).
Qed.

Lemma isdigit_not_space c : isdigit c = true → isspace c = false.
Proof.
  unfold isdigit, isspace. intros H.
  apply andb_true_iff in H as [H1 H2].
  apply Z.leb_le in H1. apply Z.leb_le in H2.
  apply orb_false_iff. split.
  - apply Z.eqb_neq. lia.
  - apply andb_false_iff. right. apply Z.leb_gt. lia.
Qed.

Lemma to_digits_app fuel n acc :
  to_digits fuel n acc = to_digits fuel n [] ++ acc.
Proof.
  revert n acc. induction fuel as [|fuel IH]; intros n acc; simpl; [done|].
  destruct (n <? 10); [done|].
  rewrite IH, (IH _ [_]). by rewrite <- app_assoc.
Qed.

Lemma to_digits_head fuel n acc :
  0 <= n → ∃ c tl, to_digits fuel n acc = c :: tl ∧ isdigit c = true.
Proof.
  revert n acc. induction fuel as [|fuel IH]; intros n acc Hn; simpl.
  - eexists _, _. split; [done|]. apply digit_char_facts. div_lia.
  - destruct (n <? 10) eqn:Hlt.
    + eexists _, _. split; [done|]. apply digit_char_facts. div_lia.
    + apply IH. div_lia.
Qed.

Lemma scan_digits_to_digits fuel n rest :
  0 <= n < 10 ^ Z.of_nat (S fuel) →
  scan_digits 0 (to_digits fuel n [] ++ rest) = scan_digits n rest.
Proof.
  revert n rest. induction fuel as [|fuel IH]; intros n rest Hn.
  - change (10 ^ Z.of_nat 1) with 10 in Hn.
    simpl. destruct (digit_char_facts (n mod 10)) as (-> & -> & _); [div_lia|].
    f_equal. div_lia.
  - simpl. destruct (n <? 10) eqn:Hlt.
    + apply Z.ltb_lt in Hlt. simpl.
      destruct (digit_char_facts (n mod 10)) as (-> & -> & _); [div_lia|].
      f_equal. div_lia.
    + apply Z.ltb_ge in Hlt.
      rewrite to_digits_app, <- app_assoc. rewrite IH.
      * simpl. destruct (digit_char_facts (n mod 10)) as (-> & -> & _);
          [div_lia|].
        f_equal. div_lia.
      * rewrite Nat2Z.inj_succ, Z.pow_succ_r in Hn by lia.
        revert Hn. generalize (10 ^ Z.of_nat (S fuel)). intros. div_lia.
Qed.

Lemma print_nat_bound n :
  0 <= n → 0 <= n < 10 ^ Z.of_nat (S (Z.to_nat (Z.log2 n))).
Proof.
  intros Hn. split; [done|].
  rewrite Nat2Z.inj_succ, Z2Nat.id by apply Z.log2_nonneg.
  destruct (decide (n = 0)) as [->|Hne].
  - simpl. lia.
  - pose proof (Z.log2_spec n ltac:(lia)) as [_ Hlog].
    eapply Z.lt_le_trans; [exact Hlog|].
    apply Z.pow_le_mono_l. pose proof (Z.log2_nonneg n). lia.
Qed.

(** Scanning a printed number gives the number back, whatever follows
    that is not a digit. *)
Lemma scan_decimal_print_nat n rest :
  0 <= n →
  (∀ c tl, rest = c :: tl → isdigit c = false) →
  scan_decimal (print_nat n ++ rest) = Some (n, rest).
Proof.
  intros Hn Hrest. unfold print_nat.
  destruct (to_digits_head (Z.to_nat (Z.log2 n)) n [] Hn) as (c & tl & Heq & Hc).
  pose proof (scan_digits_to_digits _ n rest (print_nat_bound n Hn)) as Hscan.
  rewrite Heq in *. unfold scan_decimal. simpl app in *.
  assert (c ≠ "-"%char ∧ c ≠ "+"%char) as [Hm Hp].
  { split; intros ->; discriminate. }
  assert (scan_digits n rest = (n, rest)) as Hstop.
  { destruct rest as [|c' tl']; [done|]. simpl. by rewrite (Hrest c' tl'). }
  destruct c as [[] [] [] [] [] [] [] []]; try done;
    rewrite Hc || (simpl; rewrite Hc) ; rewrite Hscan, Hstop; done.
Qed.

Lemma skip_space_print_nat n rest :
  0 <= n → skip_space (print_nat n ++ rest) = print_nat n ++ rest.
Proof.
  intros Hn. unfold print_nat.
  destruct (to_digits_head (Z.to_nat (Z.log2 n)) n [] Hn) as (c & tl & -> & Hc).
  simpl. by rewrite (isdigit_not_space c Hc).
Qed.

Lemma print_int_nonneg n : 0 <= n → print_int n = print_nat n.
Proof. intros Hn. unfold print_int. by destruct (Z.ltb_spec n 0); [lia|]. Qed.

Lemma to_digits_digits fuel n acc :
  0 <= n → Forall (λ c, isdigit c = true) acc →
  Forall (λ c, isdigit c = true) (to_digits fuel n acc).
Proof.
  revert n acc. induction fuel as [|fuel IH]; intros n acc Hn Hacc; simpl.
  - constructor; [|done]. apply digit_char_facts. div_lia.
  - assert (Forall (λ c, isdigit c = true) (digit_char (n mod 10) :: acc)).
    { constructor; [|done]. apply digit_char_facts. div_lia. }
    destruct (n <? 10); [done|]. apply IH; [div_lia|done].
Qed.

Lemma to_digits_leading fuel n acc :
  1 <= n < 10 ^ Z.of_nat (S fuel) →
  head (to_digits fuel n acc) ≠ Some "0"%char.
Proof.
  assert (∀ d, 1 <= d <= 9 → Some (digit_char d) ≠ Some "0"%char) as Hdigit.
  { intros d Hd.
    assert (d = 1 ∨ d = 2 ∨ d = 3 ∨ d = 4 ∨ d = 5 ∨ d = 6 ∨ d = 7 ∨ d = 8
            ∨ d = 9) as Hcases by lia.
    repeat (destruct Hcases as [-> | Hcases]); try subst d; discriminate. }
  revert n acc. induction fuel as [|fuel IH]; intros n acc Hn; simpl.
  - change (10 ^ Z.of_nat 1) with 10 in Hn. apply Hdigit. div_lia.
  - destruct (Z.ltb_spec n 10); simpl; [apply Hdigit; div_lia|].
    apply IH. rewrite Nat2Z.inj_succ, Z.pow_succ_r in Hn by lia.
    revert Hn. generalize (10 ^ Z.of_nat (S fuel)). intros. div_lia.
Qed.

(** A positive number is printed without padding. *)
Lemma print_int_unpadded n : 1 <= n → unpadded (print_int n).
Proof.
  intros Hn. rewrite print_int_nonneg by lia. unfold unpadded, print_nat.
  split_and!.
  - by apply to_digits_digits; [lia|].
  - destruct (to_digits_head (Z.to_nat (Z.log2 n)) n []) as (c & tl & -> & _);
      [lia|done].
  - apply to_digits_leading. pose proof (print_nat_bound n). lia.
Qed.

(** ** Date validator *)

Lemma is_leap_year_true year :
  is_leap_year year = true
  ↔ year `rem` 400 = 0 ∨ (year `rem` 100 ≠ 0 ∧ year `rem` 4 = 0).
Proof.
  unfold is_leap_year.
  destruct (Z.eqb_spec (year `rem` 400) 0) as [H400|H400]; [tauto|].
  destruct (Z.eqb_spec (year `rem` 100) 0) as [H100|H100];
    destruct (Z.eqb_spec (year `rem` 4) 0) as [H4|H4]; simpl;
    intuition congruence.
Qed.

(** C3: for every year, [is_leap_year] is true exactly when the year
    leaves remainder 0 by 400, or leaves a remainder by 100 and none by 4;
    1900 and 2023 are not leap years, 2000 and 2024 are. *)
Theorem is_leap_year_rule :
  (∀ year,
     is_leap_year year = true
     ↔ year `rem` 400 = 0 ∨ (year `rem` 100 ≠ 0 ∧ year `rem` 4 = 0))
  ∧ is_leap_year 1900 = false
  ∧ is_leap_year 2000 = true
  ∧ is_leap_year 2024 = true
  ∧ is_leap_year 2023 = false.
Proof. split; [exact is_leap_year_true | by vm_compute]. Qed.

(** The same rule through divisibility, and its period of 400 years. *)
Lemma is_leap_year_divide year :
  is_leap_year year = true
  ↔ (400 | year) ∨ (¬ (100 | year) ∧ (4 | year)).
Proof.
  rewrite is_leap_year_true.
  rewrite <- !Z.rem_divide by lia. tauto.
Qed.

(** X21: [is_leap_year] repeats every 400 years, for years before the
    year 0 as well. *)
Lemma is_leap_year_period year :
  is_leap_year (year + 400) = is_leap_year year.
Proof.
  apply eq_true_iff_eq. rewrite !is_leap_year_divide.
  assert (∀ k, (k | 400) → (k | year + 400) ↔ (k | year)) as Hk.
  { intros k Hk. split; intros H.
    - replace year with (year + 400 - 400) by lia. by apply Z.divide_sub_r.
    - by apply Z.divide_add_r. }
  rewrite (Hk 400), (Hk 100), (Hk 4); [tauto|..];
    [by exists 100 | by exists 4 | by exists 1].
Qed.

(** What [is_valid_date] answers from the three numbers scanned. *)
Lemma is_valid_date_scanned s day month year :
  sscanf_date s = (3, [day; month; year]) →
  is_valid_date s = true
  ↔ 1 <= year ∧ 1 <= month <= 12 ∧ 1 <= day
    ∧ day <= spec_days_in_month month year.
Proof.
  intros Hscan. unfold is_valid_date, spec_days_in_month. rewrite Hscan. simpl.
  assert (∀ P : Prop, ¬ P → false = true ↔ P) as Hno by (intros; split; [done|tauto]).
  assert (∀ P : Prop, P → true = true ↔ P) as Hyes by (intros; split; done).
  destruct (Z.ltb_spec year 1); [apply Hno; lia|].
  destruct (Z.ltb_spec month 1); [apply Hno; lia|].
  destruct (Z.gtb_spec month 12); [apply Hno; lia|]. simpl.
  destruct (Z.ltb_spec day 1); [apply Hno; lia|].
  destruct (Z.eqb_spec month 2) as [->|Hm]; simpl.
  - destruct (is_leap_year year); simpl.
    + destruct (Z.gtb_spec day 29); [apply Hno|apply Hyes]; lia.
    + destruct (Z.gtb_spec day 28); [apply Hno|apply Hyes]; lia.
  - match goal with
    | |- context [day >? ?x] => destruct (Z.gtb_spec day x)
    end; [apply Hno|apply Hyes]; lia.
Qed.

Lemma is_valid_date_unscanned s :
  (sscanf_date s).1 ≠ 3 → is_valid_date s = false.
Proof.
  unfold is_valid_date. destruct (sscanf_date s) as [matches vals]. simpl.
  intros H. by destruct (Z.eqb_spec matches 3).
Qed.

(** The return value of [sscanf] is 3 exactly when three values were
    stored. *)
Lemma sscanf_date_three s :
  (sscanf_date s).1 = 3
  ↔ ∃ day month year, sscanf_date s = (3, [day; month; year]).
Proof.
  unfold sscanf_date.
  destruct (conv_d s) as [[day s1]|]; simpl.
  - destruct (lit_slash s1 ≫= conv_d) as [[month s2]|]; simpl.
    + destruct (lit_slash s2 ≫= conv_d) as [[year s3]|]; simpl.
      * split; [eauto|done].
      * split; [done|]. by intros (?&?&?&?).
    + split; [done|]. by intros (?&?&?&?).
  - split; [by destruct (skip_space s)|]. by intros (?&?&?&?).
Qed.

Lemma is_valid_date_three s :
  is_valid_date s = true →
  ∃ day month year, sscanf_date s = (3, [day; month; year])
    ∧ 1 <= year ∧ 1 <= month <= 12 ∧ 1 <= day
    ∧ day <= spec_days_in_month month year.
Proof.
  intros Hvalid.
  destruct (decide ((sscanf_date s).1 = 3)) as [H3|H3].
  - apply sscanf_date_three in H3 as (day & month & year & Hscan).
    exists day, month, year. split; [done|].
    by apply (is_valid_date_scanned _ _ _ _ Hscan).
  - by rewrite is_valid_date_unscanned in Hvalid.
Qed.

(** What [sscanf] stores are [int] values. *)
Lemma sscanf_date_in_int s day month year :
  sscanf_date s = (3, [day; month; year]) →
  in_int day ∧ in_int month ∧ in_int year.
Proof.
  unfold sscanf_date, conv_d.
  destruct (scan_decimal (skip_space s)) as [[n1 r1]|]; [|done].
  destruct (lit_slash r1) as [r1'|]; simpl; [|done].
  destruct (scan_decimal (skip_space r1')) as [[n2 r2]|]; [|done].
  destruct (lit_slash r2) as [r2'|]; simpl; [|done].
  destruct (scan_decimal (skip_space r2')) as [[n3 r3]|]; [|done].
  intros [= <- <- <-]. auto.
Qed.

(** C2: when [sscanf] extracts three integers, [is_valid_date] holds
    exactly when the year is at least 1, the month is between 1 and 12,
    the day is at least 1 and does not exceed the days of the month; a
    string from which three integers cannot be extracted is invalid.
    29/2/2024 is valid; 29/2/2023, 31/4/2024, 0/1/2024 and 1/13/2024 are
    not. *)
Theorem is_valid_date_rule :
  (∀ s day month year,
     sscanf_date s = (3, [day; month; year]) →
     is_valid_date s = true
     ↔ 1 <= year ∧ 1 <= month <= 12 ∧ 1 <= day
       ∧ day <= spec_days_in_month month year)
  ∧ (∀ s, (¬ ∃ day month year, sscanf_date s = (3, [day; month; year])) →
          is_valid_date s = false)
  ∧ is_valid_date (str "29/2/2024") = true
  ∧ is_valid_date (str "29/2/2023") = false
  ∧ is_valid_date (str "31/4/2024") = false
  ∧ is_valid_date (str "0/1/2024") = false
  ∧ is_valid_date (str "1/13/2024") = false.
Proof.
  split; [exact is_valid_date_scanned|].
  split.
  - intros s Hnone. apply is_valid_date_unscanned.
    by rewrite sscanf_date_three.
  - split_and!; vm_compute;
      rewrite ?int_conv_exact by (unfold in_int, INT_MIN, INT_MAX; lia);
      reflexivity.
Qed.

(** ** Canonical dates *)

Lemma conv_d_print_int n rest :
  0 <= n → in_int n →
  (∀ c tl, rest = c :: tl → isdigit c = false) →
  conv_d (print_int n ++ rest) = Some (n, rest).
Proof.
  intros Hn Hint Hrest. unfold conv_d.
  rewrite print_int_nonneg, skip_space_print_nat by done.
  rewrite scan_decimal_print_nat by done. by rewrite int_conv_exact.
Qed.

(** Scanning the canonical text of three numbers gives them back. *)
Lemma sscanf_date_join day month year :
  0 <= day → 0 <= month → 0 <= year →
  in_int day → in_int month → in_int year →
  sscanf_date (join_date day month year) = (3, [day; month; year]).
Proof.
  intros. unfold sscanf_date, join_date.
  change (str "/") with ["/"%char]. simpl app.
  rewrite conv_d_print_int; [|done..|by intros ?? [= <- _]].
  change (lit_slash ("/"%char :: ?r)) with (Some r). simpl mbind.
  rewrite conv_d_print_int; [|done..|by intros ?? [= <- _]].
  change (lit_slash ("/"%char :: ?r)) with (Some r). simpl mbind.
  rewrite <- (app_nil_r (print_int year)).
  by rewrite conv_d_print_int.
Qed.

Lemma canonical_date_join s day month year :
  sscanf_date s = (3, [day; month; year]) →
  canonical_date s = Some (join_date day month year).
Proof. unfold canonical_date. by intros ->. Qed.

(** The canonical text of a valid date is a valid date again and its
    own canonical text. *)
Lemma from_valid_ok result : from_valid result → date_ok result.
Proof.
  intros (s & Hvalid & Hcanon).
  destruct (is_valid_date_three s Hvalid)
    as (day & month & year & Hscan & Hy & Hm & Hd & Hdays).
  destruct (sscanf_date_in_int _ _ _ _ Hscan) as (? & ? & ?).
  rewrite (canonical_date_join _ _ _ _ Hscan) in Hcanon.
  injection Hcanon as <-.
  assert (sscanf_date (join_date day month year) = (3, [day; month; year]))
    as Hjoin by (apply sscanf_date_join; (done || lia)).
  split.
  - by apply (is_valid_date_scanned _ _ _ _ Hjoin).
  - by apply canonical_date_join.
Qed.

Lemma canonical_date_valid s :
  is_valid_date s = true → ∃ result, canonical_date s = Some result.
Proof.
  intros (day & month & year & Hscan & _)%is_valid_date_three.
  eexists. by apply canonical_date_join.
Qed.

(** ** The position prompt *)

Lemma skip_lines_length ls : (length (skip_lines ls) ≤ length ls)%nat.
Proof.
  induction ls as [|l ls IH]; simpl; [done|].
  destruct (skip_space l); simpl; lia.
Qed.

Lemma skip_lines_rest ls l rest :
  skip_lines ls = l :: rest → (length rest < length ls)%nat.
Proof.
  intros H. pose proof (skip_lines_length ls) as Hlen.
  rewrite H in Hlen. simpl in Hlen. lia.
Qed.

Lemma next_entry_eof w : cin w = [] → next_entry w = NotNumber [].
Proof. unfold next_entry. intros ->. by destruct (failbit w). Qed.

Lemma next_entry_in_int w n rest : next_entry w = Number n rest → in_int n.
Proof.
  unfold next_entry. destruct (failbit w); [done|].
  destruct (skip_lines (cin w)) as [|l ls]; [done|].
  destruct (scan_decimal l) as [[m l']|]; [|done].
  destruct (in_int_b m) eqn:Hm; [|done]. intros [= <- _].
  unfold in_int_b in Hm. apply andb_true_iff in Hm as [?%Z.leb_le ?%Z.leb_le].
  done.
Qed.

(** The lines an iteration leaves are fewer than the lines it found. *)
Lemma next_entry_shorter w :
  cin w ≠ [] →
  match next_entry w with
  | Number _ rest | NotNumber rest => (length rest < length (cin w))%nat
  end.
Proof.
  unfold next_entry. intros Hne. destruct (failbit w).
  - destruct (cin w); [done|]. simpl. lia.
  - destruct (skip_lines (cin w)) as [|l ls] eqn:Hskip.
    + destruct (cin w); [done|]. simpl. lia.
    + apply skip_lines_rest in Hskip.
      destruct (scan_decimal l) as [[m l']|]; [|done].
      by destruct (in_int_b m).
Qed.

Lemma size_t_of_int_small n : 0 <= n → in_int n → size_t_of_int n = n.
Proof.
  unfold in_int, INT_MAX, size_t_of_int. intros ? [_ ?].
  apply Z.mod_small. lia.
Qed.

(** One iteration of the loop of [get_item_position], by what it finds on
    the input. *)
Lemma item_loop_step fuel action w :
  get_item_position_loop (S fuel) action w =
  match next_entry w with
  | NotNumber rest =>
      get_item_position_loop fuel action
        (after_entry rest
           [prompt action; str "What you've entered is not a number."] w)
  | Number n rest =>
      if n =? 0 then
        Ok (-1) (after_entry rest [prompt action; str "Abort task."] w)
      else if (1 <=? n) && (n <=? Z.of_nat (length (todo_items w))) then
        Ok (n - 1) (after_entry rest [prompt action] w)
      else
        get_item_position_loop fuel action
          (after_entry rest
             [prompt action; str "Task number is out of range."] w)
  end.
Proof.
  pose proof (next_entry_in_int w) as Hint. revert Hint.
  unfold next_entry. simpl.
  unfold bind, print, extract_int, ignore_line, good, clear, vec_size, ret,
    after_entry, set_cout, set_cin, set_failbit. simpl.
  destruct (failbit w) eqn:Hfail; simpl.
  { intros _. by rewrite <- app_assoc. }
  destruct (skip_lines (cin w)) as [|l ls]; simpl.
  { intros _. by rewrite <- app_assoc. }
  destruct (scan_decimal l) as [[n l']|]; simpl.
  2: { intros _. by rewrite <- app_assoc. }
  destruct (in_int_b n) eqn:Hn; simpl.
  2: { intros _. by rewrite <- app_assoc. }
  intros Hint. specialize (Hint n ls eq_refl).
  rewrite ?Hfail. simpl.
  destruct (n =? 0); simpl; [by rewrite <- app_assoc|].
  destruct (Z.leb_spec 1 n); simpl; [|by rewrite <- app_assoc].
  rewrite size_t_of_int_small by (done || lia).
  destruct (n <=? _); simpl; by rewrite <- ?app_assoc.
Qed.

Lemma item_loop_eof fuel action w :
  cin w = [] → get_item_position_loop fuel action w = Hang (todo_items w).
Proof.
  revert w. induction fuel as [|fuel IH]; intros w Hw; [done|].
  rewrite item_loop_step, next_entry_eof by done. by rewrite IH.
Qed.

(** Fuel above the number of lines is never used up: more of it gives
    the same outcome. *)
Lemma item_loop_fuel fuel1 fuel2 action w :
  (length (cin w) < fuel1)%nat → (length (cin w) < fuel2)%nat →
  get_item_position_loop fuel1 action w
  = get_item_position_loop fuel2 action w.
Proof.
  revert fuel2 w. induction fuel1 as [|fuel1 IH]; intros fuel2 w H1 H2; [lia|].
  destruct fuel2 as [|fuel2]; [lia|].
  destruct (decide (cin w = [])) as [Heof|Hne].
  { by rewrite !item_loop_eof. }
  rewrite !item_loop_step.
  pose proof (next_entry_shorter w Hne) as Hshort.
  destruct (next_entry w) as [n rest|rest].
  - destruct (n =? 0); [done|]. destruct (_ && _); [done|].
    apply IH; simpl; lia.
  - apply IH; simpl; lia.
Qed.

(** [get_item_position] by what it finds on the input. *)
Lemma get_item_position_step action w :
  get_item_position action w =
  match next_entry w with
  | NotNumber rest =>
      get_item_position action
        (after_entry rest
           [prompt action; str "What you've entered is not a number."] w)
  | Number n rest =>
      if n =? 0 then
        Ok (-1) (after_entry rest [prompt action; str "Abort task."] w)
      else if (1 <=? n) && (n <=? Z.of_nat (length (todo_items w))) then
        Ok (n - 1) (after_entry rest [prompt action] w)
      else
        get_item_position action
          (after_entry rest
             [prompt action; str "Task number is out of range."] w)
  end.
Proof.
  unfold get_item_position. rewrite item_loop_step.
  destruct (decide (cin w = [])) as [Heof|Hne].
  { rewrite next_entry_eof by done. by rewrite !item_loop_eof. }
  pose proof (next_entry_shorter w Hne) as Hshort.
  destruct (next_entry w) as [n rest|rest].
  - destruct (n =? 0); [done|]. destruct (_ && _); [done|].
    apply item_loop_fuel; simpl; lia.
  - apply item_loop_fuel; simpl; lia.
Qed.

(** ** Reasoning about calls *)

Lemma post_bind {A B} (m : io A) (k : A → io B) w Q H F :
  post m w (λ a w1, post (k a) w1 Q H F) H F → post (bind m k) w Q H F.
Proof. unfold post, bind. by destruct (m w). Qed.

Lemma post_weaken {A} (m : io A) w (Q Q' : A → world → Prop)
    (H H' : TodoItems → Prop) (F F' : fault → Prop) :
  post m w Q H F →
  (∀ a w', Q a w' → Q' a w') → (∀ items, H items → H' items) →
  (∀ e, F e → F' e) →
  post m w Q' H' F'.
Proof. unfold post. destruct (m w); auto. Qed.

Lemma last_two {A} (l : list A) x y : last (l ++ [x; y]) = Some y.
Proof. change (l ++ [x; y]) with (l ++ [x] ++ [y]). by rewrite app_assoc, last_snoc. Qed.

(** What [get_item_position] returns is the abort code, after the abort
    message, or an index of the vector; it leaves the task list alone and
    the stream in a good state. *)
Lemma item_loop_post fuel action w :
  post (get_item_position_loop fuel action) w
    (λ i w', todo_items w' = todo_items w ∧ failbit w' = false
             ∧ ((i = -1 ∧ last (cout w') = Some (str "Abort task."))
                ∨ 0 <= i <= Z.of_nat (length (todo_items w)) - 1))
    (λ items, items = todo_items w) no_fault.
Proof.
  unfold post. revert w. induction fuel as [|fuel IH]; intros w; [done|].
  rewrite item_loop_step.
  destruct (next_entry w) as [n rest|rest].
  - destruct (n =? 0).
    { split_and!; [done..|]. left. split; [done|]. apply last_two. }
    destruct (Z.leb_spec 1 n); simpl.
    + destruct (Z.leb_spec n (Z.of_nat (length (todo_items w)))).
      * split_and!; [done..|]. right. lia.
      * apply (IH (after_entry _ _ w)).
    + apply (IH (after_entry _ _ w)).
  - apply (IH (after_entry _ _ w)).
Qed.

Lemma get_item_position_post action w :
  post (get_item_position action) w
    (λ i w', todo_items w' = todo_items w ∧ failbit w' = false
             ∧ ((i = -1 ∧ last (cout w') = Some (str "Abort task."))
                ∨ 0 <= i <= Z.of_nat (length (todo_items w)) - 1))
    (λ items, items = todo_items w) no_fault.
Proof. apply item_loop_post. Qed.

(** An operation that starts with [get_item_position], by what the prompt
    finds on the input. *)
Lemma with_position_step {A} action (k : Z → io A) w :
  bind (get_item_position action) k w =
  match next_entry w with
  | NotNumber rest =>
      bind (get_item_position action) k
        (after_entry rest
           [prompt action; str "What you've entered is not a number."] w)
  | Number n rest =>
      if n =? 0 then
        k (-1) (after_entry rest [prompt action; str "Abort task."] w)
      else if (1 <=? n) && (n <=? Z.of_nat (length (todo_items w))) then
        k (n - 1) (after_entry rest [prompt action] w)
      else
        bind (get_item_position action) k
          (after_entry rest
             [prompt action; str "Task number is out of range."] w)
  end.
Proof.
  unfold bind at 1. rewrite get_item_position_step.
  destruct (next_entry w) as [n rest|rest]; [|done].
  destruct (n =? 0); [done|]. by destruct (_ && _).
Qed.

Lemma at_index_lookup i w item :
  0 <= i → todo_items w !! Z.to_nat i = Some item → at_index i w = Ok item w.
Proof.
  intros Hi Hitem. unfold at_index, in_bounds.
  apply lookup_lt_Some in Hitem as Hlt. rewrite Hitem.
  destruct (Z.leb_spec 0 i); [|lia].
  by destruct (Z.ltb_spec i (Z.of_nat (length (todo_items w)))); [|lia].
Qed.

Lemma in_bounds_true i (items : TodoItems) :
  0 <= i <= Z.of_nat (length items) - 1 → in_bounds i items = true.
Proof.
  intros. unfold in_bounds.
  destruct (Z.leb_spec 0 i); [|lia].
  by destruct (Z.ltb_spec i (Z.of_nat (length items))); [|lia].
Qed.

Lemma index_lookup i (items : TodoItems) :
  0 <= i <= Z.of_nat (length items) - 1 →
  ∃ item, items !! Z.to_nat i = Some item.
Proof. intros. apply lookup_lt_is_Some. lia. Qed.

Lemma alter_completed_insert (items : TodoItems) i item b :
  items !! i = Some item →
  alter (with_completed b) i items = <[i := with_completed b item]> items.
Proof.
  intros Hitem. apply list_eq. intros j.
  destruct (decide (i = j)) as [<-|Hne].
  - rewrite list_lookup_alter_eq, Hitem, list_lookup_insert_eq; [done|].
    by apply lookup_lt_Some in Hitem.
  - by rewrite list_lookup_alter_ne, list_lookup_insert_ne.
Qed.

(** ** Mark *)

Lemma mark_rejected w n rest :
  next_entry w = Number n rest →
  n < 1 ∨ Z.of_nat (length (todo_items w)) < n →
  mark w =
  if n =? 0
  then Ok () (after_entry rest [prompt (str "mark"); str "Abort task."] w)
  else mark (after_entry rest
               [prompt (str "mark"); str "Task number is out of range."] w).
Proof.
  intros Hentry Hout. unfold mark at 1. rewrite with_position_step, Hentry.
  destruct (Z.eqb_spec n 0) as [->|Hn]; [done|].
  destruct (Z.leb_spec 1 n); [|done].
  by destruct (Z.leb_spec n (Z.of_nat (length (todo_items w)))); [lia|].
Qed.

Lemma mark_accepted w n rest item :
  next_entry w = Number n rest →
  1 <= n <= Z.of_nat (length (todo_items w)) →
  todo_items w !! Z.to_nat (n - 1) = Some item →
  mark w =
  if completed item
  then Ok () (after_entry rest
                [prompt (str "mark");
                 str "Task is already marked as completed."] w)
  else Ok () (set_items
                (<[Z.to_nat (n - 1) := with_completed true item]> (todo_items w))
                (after_entry rest
                   [prompt (str "mark"); str "Task marked as completed."] w)).
Proof.
  intros Hentry Hn Hitem. unfold mark. rewrite with_position_step, Hentry.
  destruct (Z.eqb_spec n 0) as [->|_]; [lia|].
  destruct (Z.leb_spec 1 n); [|lia].
  destruct (Z.leb_spec n (Z.of_nat (length (todo_items w)))); [|lia].
  simpl. destruct (Z.eqb_spec (n - 1) (-1)); [lia|].
  unfold bind. rewrite (at_index_lookup _ _ item) by (done || lia).
  destruct (completed item).
  - unfold print, after_entry, set_cout. simpl. by rewrite <- app_assoc.
  - unfold assign_completed. rewrite in_bounds_true by (simpl; lia).
    unfold print, after_entry, set_cout, set_items. simpl.
    by rewrite <- app_assoc, (alter_completed_insert _ _ item).
Qed.

(** What a call of [mark] does, whatever it reads: it returns with the
    list as it was, or with the flag of one record that was not completed
    set and nothing else changed, or it never returns and the list is as
    it was. *)
Lemma mark_sets_one_flag w :
  post mark w
    (λ _ w',
       todo_items w' = todo_items w
       ∨ ∃ i item, todo_items w !! i = Some item ∧ completed item = false
           ∧ todo_items w'
             = <[i := {| title := title item; description := description item;
                         due_date := due_date item; completed := true |}]>
                 (todo_items w))
    (λ items, items = todo_items w) no_fault.
Proof.
  unfold mark. apply post_bind.
  eapply post_weaken; [apply get_item_position_post| |done..].
  intros i w1 (Hitems1 & _ & [[-> Hlast]|Hi]); simpl.
  { by left. }
  destruct (Z.eqb_spec i (-1)); [lia|].
  destruct (index_lookup i (todo_items w)) as [item Hitem]; [done|].
  apply post_bind. unfold post at 1.
  rewrite (at_index_lookup i w1 item) by (lia || congruence).
  destruct (completed item) eqn:Hflag.
  { unfold post, print. simpl. by left. }
  unfold post, bind, assign_completed, print.
  rewrite in_bounds_true by (rewrite Hitems1; lia). simpl. right.
  exists (Z.to_nat i), item. split_and!; [done..|].
  rewrite Hitems1. by apply alter_completed_insert.
Qed.

(** C4 as amended: what [mark] does with the position it reads.  A
    position in 1..size whose record is completed is reported as already
    completed and the call returns with the list as it was.  A position in
    1..size whose record is not completed is reported as marked and the
    call returns with the flag of that record true: its title, description
    and due date, the length of the list and every other record are as
    before.  A position outside 1..size addresses no record and is not a
    result of the call: 0 ends the call with the abort message and the
    list as it was, and any other one is reported as out of range, changes
    nothing, and the call goes on as a call of [mark] on the input that
    follows.  So whatever is read, a call that returns has left the list
    as it was or has set the flag of one record that was not completed,
    and a call that never returns has left the list as it was. *)
Theorem mark_three_outcomes w position rest :
  next_entry w = Number position rest →
  let items := todo_items w in
  let index := Z.to_nat (position - 1) in
  let said msg := after_entry rest [prompt (str "mark"); str msg] w in
  match spec_mark_completed items position with
  | (NotFound, items') =>
      (position < 1 ∨ Z.of_nat (length items) < position)
      ∧ items' = items
      ∧ (position = 0 → mark w = Ok () (said "Abort task."))
      ∧ (position ≠ 0 → mark w = mark (said "Task number is out of range."))
      ∧ todo_items (said "Abort task.") = items
      ∧ todo_items (said "Task number is out of range.") = items
  | (AlreadyCompleted, items') =>
      1 <= position <= Z.of_nat (length items)
      ∧ (∃ item, items !! index = Some item ∧ completed item = true)
      ∧ items' = items
      ∧ mark w = Ok () (said "Task is already marked as completed.")
      ∧ todo_items (said "Task is already marked as completed.") = items
  | (Marked, items') =>
      1 <= position <= Z.of_nat (length items)
      ∧ (∃ item, items !! index = Some item ∧ completed item = false
           ∧ items' !! index
             = Some {| title := title item; description := description item;
                       due_date := due_date item; completed := true |})
      ∧ length items' = length items
      ∧ (∀ j, j ≠ index → items' !! j = items !! j)
      ∧ mark w = Ok () (set_items items' (said "Task marked as completed."))
      ∧ todo_items (set_items items' (said "Task marked as completed."))
        = items'
  end
  ∧ post mark w
      (λ _ w',
         todo_items w' = items
         ∨ ∃ i item, items !! i = Some item ∧ completed item = false
             ∧ todo_items w'
               = <[i := {| title := title item;
                           description := description item;
                           due_date := due_date item; completed := true |}]>
                   items)
      (λ items', items' = items) no_fault.
Proof.
  intros Hentry. cbv zeta. split; [|apply mark_sets_one_flag].
  unfold spec_mark_completed.
  assert (position < 1 ∨ Z.of_nat (length (todo_items w)) < position →
          (position = 0 →
           mark w
           = Ok () (after_entry rest
                      [prompt (str "mark"); str "Abort task."] w))
          ∧ (position ≠ 0 →
             mark w
             = mark (after_entry rest
                       [prompt (str "mark");
                        str "Task number is out of range."] w)))
    as Hout.
  { intros Hrange.
    pose proof (mark_rejected w position rest Hentry Hrange) as Hmark.
    destruct (Z.eqb_spec position 0); split; (done || lia). }
  destruct (Z.leb_spec 1 position); simpl.
  2: { split_and!; [lia|done|by apply Hout; lia..|done|done]. }
  destruct (Z.leb_spec position (Z.of_nat (length (todo_items w)))); simpl.
  2: { split_and!; [lia|done|by apply Hout; lia..|done|done]. }
  destruct (index_lookup (position - 1) (todo_items w)) as [item Hitem]; [lia|].
  rewrite Hitem.
  pose proof (mark_accepted w position rest item Hentry ltac:(lia) Hitem)
    as Hmark.
  pose proof (lookup_lt_Some _ _ _ Hitem) as Hlt.
  destruct (completed item) eqn:Hdone.
  - split_and!; [lia..|by exists item|done|done|done].
  - split_and!; [lia..| |by rewrite length_insert| |done|done].
    + exists item. split_and!; [done..|].
      by rewrite list_lookup_insert_eq.
    + intros j Hj. by rewrite list_lookup_insert_ne.
Qed.

(** ** Remove *)

Lemma extract_char_next w c rest :
  failbit w = false → next_char (cin w) = Some (c, rest) →
  ∃ l, extract_char w = Ok (Some c) (set_cin (l :: rest) w).
Proof.
  unfold next_char, extract_char. intros -> Hnext.
  destruct (skip_lines (cin w)) as [|[|c' l] ls]; [done..|].
  injection Hnext as -> ->. by exists l.
Qed.

Lemma extract_char_none w :
  failbit w = false → next_char (cin w) = None →
  extract_char w = Ok None (set_failbit true (set_cin [] w)).
Proof.
  unfold next_char, extract_char. intros -> Hnext.
  by destruct (skip_lines (cin w)) as [|[|c' l] ls].
Qed.

(** [remove] once the position is accepted and a confirmation character
    is there: the record goes when the character is y or Y and stays
    otherwise. *)
Lemma remove_accepted w n rest item c rest' :
  next_entry w = Number n rest →
  1 <= n <= Z.of_nat (length (todo_items w)) →
  todo_items w !! Z.to_nat (n - 1) = Some item →
  next_char rest = Some (c, rest') →
  remove w =
  Ok () {| todo_items := if confirms c
                         then delete (Z.to_nat (n - 1)) (todo_items w)
                         else todo_items w;
           cin := rest';
           failbit := false;
           cout := cout w ++
             [prompt (str "remove"); confirm_text item;
              if confirms c then str "Task deleted successfully."
              else str "Delete operation cancelled."] |}.
Proof.
  intros Hentry Hn Hitem Hchar. unfold remove.
  rewrite with_position_step, Hentry.
  destruct (Z.eqb_spec n 0) as [->|_]; [lia|].
  destruct (Z.leb_spec 1 n); [|lia].
  destruct (Z.leb_spec n (Z.of_nat (length (todo_items w)))); [|lia].
  simpl. destruct (Z.eqb_spec (n - 1) (-1)); [lia|].
  unfold bind at 1. rewrite (at_index_lookup _ _ item) by (done || lia).
  unfold bind at 1. unfold print at 1.
  unfold bind at 1.
  edestruct (extract_char_next
               (set_cout (cout (after_entry rest [prompt (str "remove")] w)
                          ++ [confirm_text item])
                         (after_entry rest [prompt (str "remove")] w)))
    as [l ->]; [done|exact Hchar|].
  unfold confirms. destruct (_ || _).
  - unfold bind, erase. rewrite in_bounds_true by (simpl; lia).
    unfold print, ignore_line, after_entry, set_cout, set_items, set_cin.
    simpl. by rewrite <- !app_assoc.
  - unfold bind, print, ignore_line, after_entry, set_cout, set_items, set_cin.
    simpl. by rewrite <- !app_assoc.
Qed.

Lemma remove_unconfirmed w n rest item :
  next_entry w = Number n rest →
  1 <= n <= Z.of_nat (length (todo_items w)) →
  todo_items w !! Z.to_nat (n - 1) = Some item →
  next_char rest = None →
  remove w = Fault Uninitialised.
Proof.
  intros Hentry Hn Hitem Hchar. unfold remove.
  rewrite with_position_step, Hentry.
  destruct (Z.eqb_spec n 0) as [->|_]; [lia|].
  destruct (Z.leb_spec 1 n); [|lia].
  destruct (Z.leb_spec n (Z.of_nat (length (todo_items w)))); [|lia].
  simpl. destruct (Z.eqb_spec (n - 1) (-1)); [lia|].
  unfold bind at 1. rewrite (at_index_lookup _ _ item) by (done || lia).
  unfold bind at 1. unfold print at 1.
  unfold bind at 1. by rewrite extract_char_none.
Qed.

Lemma delete_changes (items : TodoItems) i :
  (i < length items)%nat → delete i items ≠ items.
Proof.
  intros Hi Heq. apply (f_equal length) in Heq.
  rewrite length_delete in Heq by by apply lookup_lt_is_Some. lia.
Qed.

(** C5: removing at a valid position, once confirmed, deletes the record
    there, moves every later record down by one and makes the list one
    shorter; after three appends and the removal of position 2 the size is
    2 and position 2 holds the record that was at position 3. *)
Theorem remove_shifts_down :
  (∀ w position rest c rest',
     next_entry w = Number position rest →
     1 <= position <= Z.of_nat (length (todo_items w)) →
     next_char rest = Some (c, rest') →
     confirms c = true →
     let index := Z.to_nat (position - 1) in
     ∃ w', remove w = Ok () w'
       ∧ todo_items w' = delete index (todo_items w)
       ∧ length (todo_items w') = (length (todo_items w) - 1)%nat
       ∧ (∀ i, (i < index)%nat → todo_items w' !! i = todo_items w !! i)
       ∧ (∀ i, (index ≤ i)%nat → todo_items w' !! i = todo_items w !! S i))
  ∧ (∀ r1 r2 r3 out,
       let w := {| todo_items := []; cin := [str "2"; str "y"];
                   failbit := false; cout := out |} in
       ∃ w', (push_back r1;; push_back r2;; push_back r3;; remove) w
             = Ok () w'
         ∧ length (todo_items w') = 2%nat
         ∧ todo_items w' !! 1%nat = Some r3).
Proof.
  split.
  - intros w position rest c rest' Hentry Hpos Hchar Hyes index.
    destruct (index_lookup (position - 1) (todo_items w)) as [item Hitem];
      [lia|].
    rewrite (remove_accepted w position rest item c rest') by done.
    rewrite Hyes. eexists. split; [done|]. simpl. fold index.
    split_and!.
    + done.
    + apply length_delete. by exists item.
    + intros i Hi. by apply list_lookup_delete_lt.
    + intros i Hi. by apply list_lookup_delete_ge.
  - intros r1 r2 r3 out w. eexists. split; [by vm_compute|]. done.
Qed.

(** C8 as amended: once a valid position is chosen, the record is
    deleted exactly when the first character of the confirmation that is
    not white space is y or Y; any other character cancels and leaves the
    list as it is. *)
Theorem remove_needs_confirmation w position rest c rest' :
  next_entry w = Number position rest →
  1 <= position <= Z.of_nat (length (todo_items w)) →
  next_char rest = Some (c, rest') →
  ∃ w', remove w = Ok () w'
    ∧ (c = "y"%char ∨ c = "Y"%char →
       todo_items w' = delete (Z.to_nat (position - 1)) (todo_items w))
    ∧ (c ≠ "y"%char ∧ c ≠ "Y"%char → todo_items w' = todo_items w)
    ∧ (todo_items w' ≠ todo_items w ↔ c = "y"%char ∨ c = "Y"%char).
Proof.
  intros Hentry Hpos Hchar.
  destruct (index_lookup (position - 1) (todo_items w)) as [item Hitem];
    [lia|].
  rewrite (remove_accepted w position rest item c rest') by done.
  eexists. split; [done|]. simpl.
  assert (confirms c = true ↔ c = "y"%char ∨ c = "Y"%char) as Hc.
  { unfold confirms. rewrite orb_true_iff, !bool_decide_eq_true. done. }
  destruct (confirms c).
  - split_and!; [done|intros []; intuition congruence|].
    split; [intros _; by apply Hc|]. intros _.
    apply delete_changes. apply lookup_lt_is_Some. by exists item.
  - split_and!; [intros H; apply Hc in H; done|done|].
    split; [done|]. intros H. by apply Hc in H.
Qed.

(** ** Add and edit *)

Lemma getline_post old w :
  ∃ l w', getline old w = Ok l w' ∧ todo_items w' = todo_items w
    ∧ cout w' = cout w.
Proof.
  unfold getline. destruct (failbit w); [by eauto|].
  destruct (cin w); by eauto.
Qed.

Lemma get_date_loop_post fuel date_str w :
  post (get_date_loop fuel date_str) w
    (λ result w', is_valid_date result = true ∧ todo_items w' = todo_items w)
    (λ items, items = todo_items w) no_fault.
Proof.
  unfold post. revert date_str w.
  induction fuel as [|fuel IH]; intros date_str w; [done|].
  simpl. unfold bind at 1.
  destruct (getline_post date_str w) as (l & w1 & -> & Hitems & _).
  destruct (is_valid_date l) eqn:Hvalid; [done|].
  unfold bind, print.
  specialize
    (IH l (set_cout (cout w1 ++ [str "Please enter a valid date: "]) w1)).
  simpl in IH. rewrite Hitems in IH. exact IH.
Qed.

Lemma is_valid_date_empty : is_valid_date [] = false.
Proof. reflexivity. Qed.

(** Once the stream has failed the loop of [get_date_input] never ends,
    whatever the fuel. *)
Lemma get_date_loop_failed fuel date_str w :
  failbit w = true → is_valid_date date_str = false →
  get_date_loop fuel date_str w = Hang (todo_items w).
Proof.
  revert w. induction fuel as [|fuel IH]; intros w Hfail Hinvalid; [done|].
  simpl. unfold bind at 1, getline. rewrite Hfail, Hinvalid.
  unfold bind, print. by rewrite IH.
Qed.

(** Fuel above the number of lines is never used up by the loop of
    [get_date_input]: more of it gives the same outcome. *)
Lemma get_date_loop_fuel fuel1 fuel2 date_str w :
  (length (cin w) < fuel1)%nat → (length (cin w) < fuel2)%nat →
  is_valid_date date_str = false →
  get_date_loop fuel1 date_str w = get_date_loop fuel2 date_str w.
Proof.
  revert fuel2 date_str w.
  induction fuel1 as [|fuel1 IH]; intros fuel2 date_str w H1 H2 Hinvalid; [lia|].
  destruct fuel2 as [|fuel2]; [lia|].
  destruct (failbit w) eqn:Hfail.
  { by rewrite !get_date_loop_failed. }
  simpl. unfold bind at 1 3, getline. rewrite Hfail.
  destruct (cin w) as [|l rest] eqn:Hcin.
  - rewrite is_valid_date_empty. unfold bind, print.
    by rewrite !get_date_loop_failed.
  - destruct (is_valid_date l) eqn:Hvalid; [done|].
    unfold bind, print. apply IH; simpl in *; (lia || done).
Qed.

(** The date [get_date_input] returns is the canonical text of a valid
    line; the call leaves the task list alone. *)
Lemma get_date_input_post w :
  post get_date_input w
    (λ result w', from_valid result ∧ todo_items w' = todo_items w)
    (λ items, items = todo_items w) no_fault.
Proof.
  unfold get_date_input. apply post_bind.
  eapply post_weaken; [apply get_date_loop_post| |done..].
  intros date_str w' [Hvalid Hitems]. simpl.
  destruct (canonical_date_valid date_str Hvalid) as (result & Hcanon).
  rewrite Hcanon. split; [by exists date_str|done].
Qed.

(** What [add] does to the task list: nothing and the abort message, or
    one record more at the end and the success message. *)
Lemma add_post w :
  post add w
    (λ _ w',
       (todo_items w' = todo_items w
        ∧ last (cout w') = Some (str "Abort task."))
       ∨ (∃ task,
            title task ≠ [] ∧ from_valid (due_date task)
            ∧ completed task = false
            ∧ todo_items w' = todo_items w ++ [task]
            ∧ last (cout w') = Some (str "Task added successfully")))
    (λ items, items = todo_items w) no_fault.
Proof.
  unfold add. do 2 (apply post_bind; unfold post at 1, print at 1).
  apply post_bind. unfold post at 1.
  match goal with
  | |- context [getline [] ?w0] =>
      destruct (getline_post [] w0) as (new_title & w1 & -> & Hitems1 & _)
  end.
  simpl in Hitems1.
  destruct new_title as [|c new_title].
  { unfold post, print. simpl. left. by rewrite last_snoc. }
  apply post_bind; unfold post at 1, print at 1.
  apply post_bind. unfold post at 1.
  match goal with
  | |- context [getline [] ?w0] =>
      destruct (getline_post [] w0) as (new_desc & w2 & -> & Hitems2 & _)
  end.
  simpl in Hitems2.
  apply post_bind; unfold post at 1, print at 1.
  apply post_bind.
  eapply post_weaken; [apply get_date_input_post| |simpl; congruence|done].
  intros new_date w3 [Hdate Hitems3]. simpl in Hitems3.
  unfold post, bind, push_back, print. simpl. right.
  exists {| title := c :: new_title; description := new_desc;
            due_date := new_date; completed := false |}.
  split_and!; [done..| |by rewrite last_snoc]. congruence.
Qed.

Lemma add_empty_title w rest :
  failbit w = false → cin w = [] :: rest →
  add w = Ok () {| todo_items := todo_items w; cin := rest; failbit := false;
                   cout := cout w ++
                     [str "Enter task details (Empty to abort operation): ";
                      str "Title: "; str "Abort task."] |}.
Proof.
  intros Hgood Hcin. unfold add, bind, print, getline. simpl.
  rewrite Hgood, Hcin. unfold set_cin, set_cout. simpl.
  by rewrite Hgood, <- !app_assoc.
Qed.

(** What [edit] does to the task list: nothing and the abort message, or
    one record replaced and the success message. *)
Lemma edit_post w :
  post edit w
    (λ _ w',
       (todo_items w' = todo_items w
        ∧ last (cout w') = Some (str "Abort task."))
       ∨ (∃ i old task,
            todo_items w !! i = Some old
            ∧ title task ≠ [] ∧ from_valid (due_date task)
            ∧ completed task = completed old
            ∧ todo_items w' = <[i := task]> (todo_items w)
            ∧ last (cout w') = Some (str "Task edited successfully")))
    (λ items, items = todo_items w) no_fault.
Proof.
  unfold edit. apply post_bind.
  eapply post_weaken; [apply get_item_position_post| |done..].
  intros i w1 (Hitems1 & _ & [[-> Hlast]|Hi]); simpl.
  { left. done. }
  destruct (Z.eqb_spec i (-1)); [lia|].
  destruct (index_lookup i (todo_items w)) as [old Hold]; [done|].
  apply post_bind. unfold post at 1.
  rewrite (at_index_lookup i w1 old) by (lia || congruence).
  do 2 (apply post_bind; unfold post at 1, print at 1).
  apply post_bind. unfold post at 1.
  match goal with
  | |- context [getline ?t ?w0] =>
      destruct (getline_post t w0) as (new_title & w2 & -> & Hitems2 & _)
  end.
  simpl in Hitems2.
  destruct new_title as [|c new_title].
  { unfold post, print. simpl. left. rewrite last_snoc. split; congruence. }
  apply post_bind; unfold post at 1, print at 1.
  apply post_bind. unfold post at 1.
  match goal with
  | |- context [getline ?t ?w0] =>
      destruct (getline_post t w0) as (new_desc & w3 & -> & Hitems3 & _)
  end.
  simpl in Hitems3.
  apply post_bind; unfold post at 1, print at 1.
  apply post_bind.
  eapply post_weaken; [apply get_date_input_post| |simpl; congruence|done].
  intros new_date w4 [Hdate Hitems4]. simpl in Hitems4.
  assert (todo_items w4 = todo_items w) as Hitems by congruence.
  unfold post, bind, assign_index, print.
  rewrite in_bounds_true by (rewrite Hitems; lia). simpl. right.
  exists (Z.to_nat i), old,
    {| title := c :: new_title; description := new_desc;
       due_date := new_date; completed := completed old |}.
  split_and!; [done..| |by rewrite last_snoc]. by rewrite Hitems.
Qed.

Lemma edit_empty_title w position rest rest' :
  next_entry w = Number position rest →
  1 <= position <= Z.of_nat (length (todo_items w)) →
  rest = [] :: rest' →
  ∃ w', edit w = Ok () w' ∧ todo_items w' = todo_items w
    ∧ last (cout w') = Some (str "Abort task.").
Proof.
  intros Hentry Hpos ->. unfold edit. rewrite with_position_step, Hentry.
  destruct (Z.eqb_spec position 0) as [->|_]; [lia|].
  destruct (Z.leb_spec 1 position); [|lia].
  destruct (Z.leb_spec position (Z.of_nat (length (todo_items w)))); [|lia].
  simpl. destruct (Z.eqb_spec (position - 1) (-1)); [lia|].
  destruct (index_lookup (position - 1) (todo_items w)) as [old Hold]; [lia|].
  unfold bind at 1. rewrite (at_index_lookup _ _ old) by (done || lia).
  unfold bind, print, getline. simpl.
  eexists. split; [done|]. simpl. split; [done|]. by rewrite last_snoc.
Qed.

(** ** What the operations do to the list *)

Lemma mark_post w :
  post mark w
    (λ _ w',
       todo_items w' = todo_items w
       ∨ ∃ i item, todo_items w !! i = Some item
           ∧ todo_items w' = <[i := with_completed true item]> (todo_items w))
    (λ items, items = todo_items w) no_fault.
Proof.
  unfold mark. apply post_bind.
  eapply post_weaken; [apply get_item_position_post| |done..].
  intros i w1 (Hitems1 & _ & [[-> Hlast]|Hi]); simpl.
  { by left. }
  destruct (Z.eqb_spec i (-1)); [lia|].
  destruct (index_lookup i (todo_items w)) as [item Hitem]; [done|].
  apply post_bind. unfold post at 1.
  rewrite (at_index_lookup i w1 item) by (lia || congruence).
  destruct (completed item).
  { unfold post, print. simpl. by left. }
  unfold post, bind, assign_completed, print.
  rewrite in_bounds_true by (rewrite Hitems1; lia). simpl. right.
  exists (Z.to_nat i), item. split; [done|].
  rewrite Hitems1. by apply alter_completed_insert.
Qed.

Lemma remove_post w :
  post remove w
    (λ _ w',
       todo_items w' = todo_items w
       ∨ ∃ i, (i < length (todo_items w))%nat
           ∧ todo_items w' = delete i (todo_items w))
    (λ items, items = todo_items w) (λ e, e = Uninitialised).
Proof.
  unfold remove. apply post_bind.
  eapply post_weaken; [apply get_item_position_post| |done..].
  intros i w1 (Hitems1 & Hgood1 & [[-> Hlast]|Hi]); simpl.
  { by left. }
  destruct (Z.eqb_spec i (-1)); [lia|].
  destruct (index_lookup i (todo_items w)) as [item Hitem]; [done|].
  apply post_bind. unfold post at 1.
  rewrite (at_index_lookup i w1 item) by (lia || congruence).
  apply post_bind; unfold post at 1, print at 1.
  apply post_bind. unfold post at 1, extract_char. simpl.
  rewrite Hgood1.
  destruct (skip_lines (cin w1)) as [|[|c l] ls]; [done..|].
  destruct (_ || _).
  - unfold post, bind, erase, print, ignore_line.
    rewrite in_bounds_true by (simpl; rewrite Hitems1; lia). simpl.
    rewrite Hgood1. right.
    exists (Z.to_nat i). rewrite Hitems1. split; [lia|done].
  - unfold post, bind, print, ignore_line. simpl. rewrite Hgood1. by left.
Qed.

(** C7: [add] and [edit] either succeed as a whole or leave the task
    list as it is.  A call that returns has extended the list by one
    record (add) or replaced one record (edit) and then written the success
    message, or has written the abort message and kept the list; a call
    that never returns keeps the list; the list differs only after the
    success message.  An empty title makes either operation return with
    the list unchanged. *)
Theorem add_edit_all_or_nothing w :
  match add w with
  | Ok _ w' =>
      ((todo_items w' = todo_items w
        ∧ last (cout w') = Some (str "Abort task."))
       ∨ (∃ task, title task ≠ []
            ∧ todo_items w' = todo_items w ++ [task]
            ∧ last (cout w') = Some (str "Task added successfully")))
      ∧ (todo_items w' ≠ todo_items w →
         last (cout w') = Some (str "Task added successfully"))
  | Hang items => items = todo_items w
  | Fault _ => False
  end
  ∧ match edit w with
    | Ok _ w' =>
        ((todo_items w' = todo_items w
          ∧ last (cout w') = Some (str "Abort task."))
         ∨ (∃ i old task, todo_items w !! i = Some old ∧ title task ≠ []
              ∧ todo_items w' = <[i := task]> (todo_items w)
              ∧ last (cout w') = Some (str "Task edited successfully")))
        ∧ (todo_items w' ≠ todo_items w →
           last (cout w') = Some (str "Task edited successfully"))
    | Hang items => items = todo_items w
    | Fault _ => False
    end
  ∧ (∀ rest,
       failbit w = false → cin w = [] :: rest →
       ∃ w', add w = Ok () w' ∧ todo_items w' = todo_items w)
  ∧ (∀ position rest,
       next_entry w = Number position ([] :: rest) →
       1 <= position <= Z.of_nat (length (todo_items w)) →
       ∃ w', edit w = Ok () w' ∧ todo_items w' = todo_items w).
Proof.
  split_and!.
  - pose proof (add_post w) as Hadd. unfold post in Hadd.
    destruct (add w) as [[] w'|items|e]; [|done..].
    destruct Hadd as [[Hsame Hlast]|(task & Htitle & _ & _ & Hnew & Hlast)].
    + split; [by left|]. done.
    + split; [right; by exists task|]. done.
  - pose proof (edit_post w) as Hedit. unfold post in Hedit.
    destruct (edit w) as [[] w'|items|e]; [|done..].
    destruct Hedit
      as [[Hsame Hlast]|(i & old & task & Hold & Htitle & _ & _ & Hnew & Hlast)].
    + split; [by left|]. done.
    + split; [right; by exists i, old, task|]. done.
  - intros rest Hgood Hcin. rewrite (add_empty_title w rest) by done.
    by eexists.
  - intros position rest Hentry Hpos.
    destruct (edit_empty_title w position _ rest Hentry Hpos eq_refl)
      as (w' & -> & Hitems & _).
    by exists w'.
Qed.

(** C9: [get_item_position] returns the abort code -1 or an index
    between 0 and size - 1, so on the empty list only -1; the outcome does
    not depend on the fuel of the model, and a 0 or a number in range on
    the input makes the call return.  [mark], [edit] and [remove] never
    index the vector outside its bounds. *)
Theorem positions_in_bounds :
  (∀ action w,
     match get_item_position action w with
     | Ok i w' =>
         (i = -1 ∨ 0 <= i <= Z.of_nat (length (todo_items w)) - 1)
         ∧ (todo_items w = [] → i = -1)
     | Hang _ => True
     | Fault _ => False
     end)
  ∧ (∀ action w fuel,
       (length (cin w) < fuel)%nat →
       get_item_position_loop fuel action w = get_item_position action w)
  ∧ (∀ action w n rest,
       next_entry w = Number n rest →
       n = 0 ∨ 1 <= n <= Z.of_nat (length (todo_items w)) →
       ∃ w', get_item_position action w = Ok (if n =? 0 then -1 else n - 1) w')
  ∧ (∀ w, mark w ≠ Fault OutOfRange ∧ edit w ≠ Fault OutOfRange
          ∧ remove w ≠ Fault OutOfRange).
Proof.
  split_and!.
  - intros action w. pose proof (get_item_position_post action w) as Hpos.
    unfold post in Hpos.
    destruct (get_item_position action w) as [i w'|items|e]; [|done..].
    destruct Hpos as (_ & _ & [[-> _]|Hi]).
    + split; [by left|done].
    + split; [by right|]. intros Hnil. rewrite Hnil in Hi. simpl in Hi. lia.
  - intros action w fuel Hfuel. unfold get_item_position.
    apply item_loop_fuel; lia.
  - intros action w n rest Hentry Hn.
    rewrite get_item_position_step, Hentry.
    destruct (Z.eqb_spec n 0); [by eexists|].
    destruct (Z.leb_spec 1 n); [|lia].
    destruct (Z.leb_spec n (Z.of_nat (length (todo_items w)))); [|lia].
    by eexists.
  - intros w. split_and!.
    + pose proof (mark_post w) as H. unfold post in H.
      by destruct (mark w).
    + pose proof (edit_post w) as H. unfold post in H.
      by destruct (edit w).
    + pose proof (remove_post w) as H. unfold post in H.
      destruct (remove w); [done..|]. by rewrite H.
Qed.

Lemma date_ok_joined s :
  date_ok s →
  ∃ day month year,
    s = print_int day ++ str "/" ++ print_int month ++ str "/"
        ++ print_int year
    ∧ unpadded (print_int day) ∧ unpadded (print_int month)
    ∧ unpadded (print_int year)
    ∧ 1 <= year ∧ 1 <= month <= 12
    ∧ 1 <= day <= spec_days_in_month month year.
Proof.
  intros [Hvalid Hcanon].
  destruct (is_valid_date_three s Hvalid)
    as (day & month & year & Hscan & ? & ? & ? & ?).
  exists day, month, year.
  rewrite (canonical_date_join _ _ _ _ Hscan) in Hcanon.
  split; [unfold join_date in Hcanon; congruence|].
  split_and!; (lia || (apply print_int_unpadded; lia)).
Qed.

(** C10: the due date of a record that [add] creates or [edit] writes is
    a valid date in canonical form, the day, month and year printed as
    decimal numbers without padding and joined by slashes, which
    canonicalizing again returns unchanged; [add], [edit], [mark] and
    [remove] keep a list of such records a list of such records. *)
Theorem stored_dates_canonical :
  (∀ w w',
     add w = Ok () w' →
     todo_items w' = todo_items w
     ∨ ∃ task, todo_items w' = todo_items w ++ [task]
         ∧ date_ok (due_date task))
  ∧ (∀ w w',
       edit w = Ok () w' →
       todo_items w' = todo_items w
       ∨ ∃ i old task, todo_items w !! i = Some old
           ∧ todo_items w' = <[i := task]> (todo_items w)
           ∧ date_ok (due_date task))
  ∧ (∀ s,
       date_ok s →
       is_valid_date s = true ∧ canonical_date s = Some s
       ∧ ∃ day month year,
           s = print_int day ++ str "/" ++ print_int month ++ str "/"
               ++ print_int year
           ∧ unpadded (print_int day) ∧ unpadded (print_int month)
           ∧ unpadded (print_int year)
           ∧ 1 <= year ∧ 1 <= month <= 12
           ∧ 1 <= day <= spec_days_in_month month year)
  ∧ (∀ w w',
       dates_ok (todo_items w) →
       add w = Ok () w' ∨ edit w = Ok () w' ∨ mark w = Ok () w'
       ∨ remove w = Ok () w' →
       dates_ok (todo_items w')).
Proof.
  assert (∀ w w', add w = Ok () w' →
            todo_items w' = todo_items w
            ∨ ∃ task, todo_items w' = todo_items w ++ [task]
                ∧ date_ok (due_date task)) as Hadd.
  { intros w w' Hrun. pose proof (add_post w) as H. unfold post in H.
    rewrite Hrun in H.
    destruct H as [[? _]|(task & _ & ?%from_valid_ok & _ & ? & _)];
      [by left|].
    right. by exists task. }
  assert (∀ w w', edit w = Ok () w' →
            todo_items w' = todo_items w
            ∨ ∃ i old task, todo_items w !! i = Some old
                ∧ todo_items w' = <[i := task]> (todo_items w)
                ∧ date_ok (due_date task)) as Hedit.
  { intros w w' Hrun. pose proof (edit_post w) as H. unfold post in H.
    rewrite Hrun in H.
    destruct H
      as [[? _]|(i & old & task & ? & _ & ?%from_valid_ok & _ & ? & _)];
      [by left|].
    right. by exists i, old, task. }
  split_and!; [exact Hadd|exact Hedit| |].
  - intros s Hok. destruct Hok as [Hvalid Hcanon]. split_and!; [done..|].
    by apply date_ok_joined.
  - intros w w' Hinv [Hrun|[Hrun|[Hrun|Hrun]]]; unfold dates_ok in *.
    + destruct (Hadd w w' Hrun) as [->|(task & -> & Hdate)]; [done|].
      apply Forall_app. split; [done|]. by apply Forall_singleton.
    + destruct (Hedit w w' Hrun) as [->|(i & old & task & _ & -> & Hdate)];
        [done|].
      by apply Forall_insert.
    + pose proof (mark_post w) as H. unfold post in H. rewrite Hrun in H.
      destruct H as [->|(i & item & Hitem & ->)]; [done|].
      apply Forall_insert; [done|]. simpl.
      by apply (Forall_lookup_1 _ _ _ _ Hinv Hitem).
    + pose proof (remove_post w) as H. unfold post in H. rewrite Hrun in H.
      destruct H as [->|(i & _ & ->)]; [done|].
      by apply Forall_delete.
Qed.

(** ** Persistence codec *)

Lemma file_lines_read s :
  s ≠ [] →
  file_lines s = (read_line s).1 :: file_lines (read_line s).2
  ∧ (length (read_line s).2 < length s)%nat.
Proof.
  induction s as [|c s IH]; [done|]. intros _. simpl.
  destruct (bool_decide (c = newline)); simpl; [split; [done|lia]|].
  destruct s as [|c' s'].
  - simpl. split; [done|lia].
  - destruct IH as [-> Hlen]; [done|].
    destruct (read_line (c' :: s')) as [l rest]. simpl in *. split; [done|lia].
Qed.

Lemma retrieve_loop_lines fuel s acc :
  (length s < fuel)%nat →
  retrieve_loop fuel s acc = acc ++ (parse_line <$> file_lines s).
Proof.
  revert s acc. induction fuel as [|fuel IH]; intros s acc Hfuel; [lia|].
  destruct s as [|c s]; [by rewrite app_nil_r|].
  destruct (file_lines_read (c :: s)) as [Hlines Hlen]; [done|].
  rewrite Hlines. cbn [retrieve_loop file_getline].
  destruct (read_line (c :: s)) as [line rest]. simpl in *.
  rewrite IH by lia. by rewrite <- app_assoc.
Qed.

(** [retrieve_data] builds one record from every line of the file. *)
Lemma retrieve_data_lines s :
  retrieve_data (Some s) = parse_line <$> file_lines s.
Proof. unfold retrieve_data. by rewrite retrieve_loop_lines by lia. Qed.

Lemma file_lines_line l s :
  free_of newline l → file_lines (l ++ newline :: s) = l :: file_lines s.
Proof.
  unfold free_of. induction l as [|c l IH]; intros Hfree; simpl; [done|].
  apply not_elem_of_cons in Hfree as [Hc Hl].
  rewrite bool_decide_eq_false_2 by congruence. by rewrite IH.
Qed.

Lemma file_lines_unlines lines :
  Forall (free_of newline) lines → file_lines (unlines lines) = lines.
Proof.
  unfold unlines. induction 1 as [|l lines Hl _ IH]; [done|].
  rewrite fmap_cons. cbn [concat]. rewrite <- app_assoc.
  change ([newline] ++ ?x) with (newline :: x).
  rewrite file_lines_line by done. by rewrite IH.
Qed.

Lemma rx_group_stop {A} c (k : text → option A) g s r :
  free_of c g → k (c :: s) = Some r →
  rx_group c k (g ++ c :: s) = Some (g, r).
Proof.
  unfold free_of. intros Hfree Hk.
  induction g as [|x g IH]; simpl.
  - by rewrite bool_decide_eq_true_2, Hk.
  - apply not_elem_of_cons in Hfree as [Hx Hg].
    rewrite bool_decide_eq_false_2 by congruence. by rewrite IH.
Qed.

(** A quoted field at the front of the input is matched as a whole. *)
Lemma match_here_field p g s gs rest :
  free_of dquote g → match_here p s = Some (gs, rest) →
  match_here (RChar dquote :: RGroupNot dquote :: RChar dquote :: p)
    (dquote :: g ++ dquote :: s)
  = Some (g :: gs, rest).
Proof.
  intros Hfree Hp. cbn [match_here].
  rewrite bool_decide_eq_true_2 by done.
  rewrite (rx_group_stop dquote _ g s (gs, rest)); [done..|].
  cbn [match_here]. by rewrite bool_decide_eq_true_2.
Qed.

Lemma match_here_char p c s r :
  match_here p s = Some r → match_here (RChar c :: p) (c :: s) = Some r.
Proof. intros Hp. cbn [match_here]. by rewrite bool_decide_eq_true_2. Qed.

Lemma regex_search_here p s gs rest :
  match_here p s = Some (gs, rest) →
  regex_search p s = take (length s - length rest) s :: gs.
Proof. intros Hp. destruct s; simpl; by rewrite Hp. Qed.

Lemma print_bool_free b : free_of dquote (print_bool b).
Proof.
  unfold free_of.
  destruct b; intros [?|[]%elem_of_nil]%elem_of_cons; done.
Qed.

Lemma parse_print_bool b : bool_decide (print_bool b = str "1") = b.
Proof. by destruct b. Qed.

(** Parsing the line written for a record without double quotes gives
    the record back. *)
Lemma parse_record_line item :
  quote_free item → parse_line (record_line item) = item.
Proof.
  intros (Htitle & Hdesc & Hdate). unfold parse_line, record_line.
  simpl app.
  erewrite regex_search_here.
  2: { unfold pattern.
       apply match_here_field; [done|]. apply match_here_char.
       apply match_here_field; [done|]. apply match_here_char.
       apply match_here_field; [done|]. apply match_here_char.
       rewrite <- (app_nil_r (print_bool _ ++ _)), <- app_assoc.
       apply match_here_field; [apply print_bool_free|]. done. }
  unfold sub_str. cbn [nth]. rewrite parse_print_bool. by destruct item.
Qed.

Lemma record_line_free item :
  newline_free item → free_of newline (record_line item).
Proof.
  unfold newline_free, free_of, record_line.
  intros (Htitle & Hdesc & Hdate).
  assert (newline ∉ print_bool (completed item)) as Hbool.
  { destruct (completed item);
      intros [?|[]%elem_of_nil]%elem_of_cons; done. }
  rewrite !not_elem_of_app, !not_elem_of_cons.
  split_and!; try done; apply not_elem_of_nil.
Qed.

Lemma save_data_unlines items :
  save_data items = unlines (record_line <$> items).
Proof.
  unfold save_data, unlines, save_line. by rewrite <- list_fmap_compose.
Qed.

(** C1 as amended: when no field of any record holds a double quote or
    a newline, parsing the text that [save_data] writes gives the list
    back, equal in all fields and in the same order. *)
Theorem save_retrieve_roundtrip items :
  Forall quote_free items → Forall newline_free items →
  retrieve_data (Some (save_data items)) = items.
Proof using.
  intros Hquote Hnewline.
  rewrite retrieve_data_lines, save_data_unlines.
  rewrite file_lines_unlines.
  - rewrite <- list_fmap_compose.
    rewrite <- (list_fmap_id items) at 2.
    apply Forall_fmap_ext_1.
    eapply Forall_impl; [exact Hquote|]. intros item Hitem. simpl.
    by apply parse_record_line.
  - apply Forall_fmap. eapply Forall_impl; [exact Hnewline|].
    intros item Hitem. by apply record_line_free.
Qed.

(** C1 as stated fails: a title of two lines has no double quote, and is
    read back as two records. *)
Lemma roundtrip_fails_on_newline :
  ¬ (∀ items : TodoItems,
       Forall quote_free items →
       retrieve_data (Some (save_data items)) = items).
Proof using.
  intros Hclaim.
  specialize (Hclaim [{| title := ["a"%char; newline; "b"%char];
                         description := []; due_date := str "1/1/2024";
                         completed := false |}]).
  discriminate Hclaim.
  by apply (bool_decide_unpack _); vm_compute.
Qed.

(** C6: a line of the file in which the pattern finds no match still
    gives a record, at the place of the line, with an empty title,
    description and due date and not completed. *)
Theorem unmatched_line_gives_empty_record s i line :
  file_lines s !! i = Some line →
  regex_search pattern line = [] →
  length (retrieve_data (Some s)) = length (file_lines s)
  ∧ retrieve_data (Some s) !! i = Some empty_item
  ∧ title empty_item = [] ∧ description empty_item = []
  ∧ due_date empty_item = [] ∧ completed empty_item = false.
Proof using.
  intros Hline Hnone. rewrite retrieve_data_lines.
  split_and!; [by rewrite length_fmap| |done..].
  rewrite list_lookup_fmap, Hline. simpl.
  unfold parse_line. by rewrite Hnone.
Qed.

(** C4 as stated fails: a position outside 1..size is not answered with
    a result.  The call asks again, and with the position 1 typed next it
    returns with the record marked, where the store of the specification
    answers not found for the position 5 and leaves the list as it was. *)
Lemma mark_asks_again_out_of_range :
  ¬ (∀ w position rest w',
       next_entry w = Number position rest →
       mark w = Ok () w' →
       todo_items w' = (spec_mark_completed (todo_items w) position).2).
Proof using.
  intros Hclaim.
  pose (item := {| title := str "a"; description := [];
                   due_date := str "1/1/2024"; completed := false |}).
  specialize (Hclaim {| todo_items := [item]; cin := [str "5"; str "1"];
                        failbit := false; cout := [] |}
                     5 [str "1"]
                     {| todo_items := [{| title := str "a"; description := [];
                                          due_date := str "1/1/2024";
                                          completed := true |}];
                        cin := []; failbit := false;
                        cout := [prompt (str "mark");
                                 str "Task number is out of range.";
                                 prompt (str "mark");
                                 str "Task marked as completed."] |}
                     eq_refl eq_refl).
  discriminate Hclaim.
Qed.

(** C8 as stated fails: the confirmation yellow is not the word yes, and
    deletes. *)
Lemma remove_confirmed_by_first_letter :
  ¬ (∀ w position line rest w',
       next_entry w = Number position (line :: rest) →
       1 <= position <= Z.of_nat (length (todo_items w)) →
       remove w = Ok () w' →
       todo_items w' = delete (Z.to_nat (position - 1)) (todo_items w)
       ↔ is_yes line = true).
Proof using.
  intros Hclaim.
  pose (item := {| title := str "a"; description := []; due_date := str "1/1/2024";
                   completed := false |}).
  specialize (Hclaim {| todo_items := [item]; cin := [str "1"; str "yellow"];
                        failbit := false; cout := [] |}
                     1 (str "yellow") []
                     {| todo_items := []; cin := []; failbit := false;
                        cout := [prompt (str "remove"); confirm_text item;
                                 str "Task deleted successfully."] |}).
  destruct Hclaim as [Hclaim _]; [done|simpl; lia|done|].
  by specialize (Hclaim eq_refl).
Qed.

(** * Further properties *)

(** ** What the parser can return *)

Lemma rx_group_inv {A} c (k : text → option A) s g r :
  rx_group c k s = Some (g, r) →
  free_of c g ∧ ∃ s', s = g ++ s' ∧ k s' = Some r.
Proof.
  unfold free_of. revert g. induction s as [|x s IH]; intros g; simpl.
  - destruct (k []) as [r'|] eqn:Hk; simpl; [|done].
    intros [= <- <-]. split; [apply not_elem_of_nil|by exists []].
  - assert (fmap (pair []) (k (x :: s)) = Some (g, r) →
            (c ∉ g) ∧ ∃ s', x :: s = g ++ s' ∧ k s' = Some r) as Hstop.
    { destruct (k (x :: s)) as [r'|] eqn:Hk; simpl; [|done].
      intros [= <- <-]. split; [apply not_elem_of_nil|by exists (x :: s)]. }
    destruct (bool_decide (x = c)) eqn:Hx; [done|].
    apply bool_decide_eq_false in Hx.
    destruct (rx_group c k s) as [[g' r']|]; [|done].
    intros [= <- <-]. destruct (IH g' eq_refl) as (Hfree & s' & -> & Hk).
    split; [|by exists s'].
    apply not_elem_of_cons. split; [congruence|done].
Qed.

(** Every group of a match is made of characters of the input, and
    holds no [c] when every group of the pattern excludes [c]. *)
Lemma match_here_groups c p s gs rest :
  Forall (λ r, ∀ c', r = RGroupNot c' → c' = c) p →
  match_here p s = Some (gs, rest) →
  Forall (λ g, free_of c g ∧ ∀ x, x ∈ g → x ∈ s) gs.
Proof.
  intros Hp. revert s gs.
  induction Hp as [|r p Hr _ IH]; intros s gs; simpl.
  - by intros [= <- _].
  - destruct r as [c'|c'].
    + destruct s as [|x s]; [done|]. destruct (bool_decide (x = c')); [|done].
      intros Hm. eapply Forall_impl; [exact (IH _ _ Hm)|].
      intros g [Hfree Hin]. split; [done|]. intros y Hy. right. by apply Hin.
    + rewrite (Hr c' eq_refl).
      destruct (rx_group c (match_here p) s) as [[g [gs' rest']]|] eqn:Hg;
        [|done].
      intros [= <- <-].
      destruct (rx_group_inv _ _ _ _ _ Hg) as (Hfree & s' & -> & Hm).
      constructor.
      * split; [done|]. intros y Hy. apply elem_of_app. by left.
      * eapply Forall_impl; [exact (IH _ _ Hm)|].
        intros g' [Hfree' Hin]. split; [done|].
        intros y Hy. apply elem_of_app. right. by apply Hin.
Qed.

Lemma regex_search_groups c p s n :
  Forall (λ r, ∀ c', r = RGroupNot c' → c' = c) p →
  free_of c (sub_str (regex_search p s) (S n))
  ∧ ∀ x, x ∈ sub_str (regex_search p s) (S n) → x ∈ s.
Proof.
  intros Hp. unfold sub_str, free_of.
  induction s as [|y s IH].
  - simpl. destruct (match_here p []) as [[gs rest]|] eqn:Hm.
    + pose proof (match_here_groups c p [] gs rest Hp Hm) as Hgs.
      simpl. destruct (gs !! n) as [g|] eqn:Hg.
      * rewrite (nth_lookup_Some _ _ _ _ Hg).
        by apply (Forall_lookup_1 _ _ _ _ Hgs Hg).
      * rewrite nth_overflow by (by apply lookup_ge_None).
        split; [apply not_elem_of_nil|by intros ? ?%elem_of_nil].
    + simpl. split; [apply not_elem_of_nil|by intros ? ?%elem_of_nil].
  - cbn [regex_search].
    destruct (match_here p (y :: s)) as [[gs rest]|] eqn:Hm.
    + pose proof (match_here_groups c p _ gs rest Hp Hm) as Hgs.
      cbn [nth]. destruct (gs !! n) as [g|] eqn:Hg.
      * rewrite (nth_lookup_Some _ _ _ _ Hg).
        by apply (Forall_lookup_1 _ _ _ _ Hgs Hg).
      * rewrite nth_overflow by (by apply lookup_ge_None).
        split; [apply not_elem_of_nil|by intros ? ?%elem_of_nil].
    + destruct IH as [Hfree Hin]. split; [done|].
      intros x Hx. right. by apply Hin.
Qed.

Lemma pattern_groups :
  Forall (λ r, ∀ c', r = RGroupNot c' → c' = dquote) pattern.
Proof. unfold pattern. repeat constructor; by intros ? [= <-]. Qed.

(** The record built from any line holds no double quote, and no
    character that the line does not hold. *)
Lemma parse_line_fields line :
  quote_free (parse_line line)
  ∧ ∀ c, free_of c line →
      free_of c (title (parse_line line))
      ∧ free_of c (description (parse_line line))
      ∧ free_of c (due_date (parse_line line)).
Proof.
  pose proof (λ n, regex_search_groups dquote pattern line n pattern_groups)
    as Hg.
  split.
  - split_and!; [apply (Hg 0%nat)|apply (Hg 1%nat)|apply (Hg 2%nat)].
  - intros c Hc. unfold free_of in *. simpl.
    split_and!; intros Hin; apply Hc;
      [apply (proj2 (Hg 0%nat))|apply (proj2 (Hg 1%nat))
      |apply (proj2 (Hg 2%nat))]; exact Hin.
Qed.

Lemma file_lines_free s : Forall (free_of newline) (file_lines s).
Proof.
  unfold free_of. induction s as [|c s IH]; simpl; [done|].
  destruct (bool_decide (c = newline)) eqn:Hc.
  - constructor; [apply not_elem_of_nil|done].
  - apply bool_decide_eq_false in Hc.
    destruct (file_lines s) as [|l ls].
    + constructor; [|done].
      apply not_elem_of_cons. split; [congruence|apply not_elem_of_nil].
    + apply Forall_cons in IH as [Hl Hls]. constructor; [|done].
      apply not_elem_of_cons. split; [congruence|done].
Qed.

Lemma parsed_lines_clean s :
  Forall quote_free (parse_line <$> file_lines s)
  ∧ Forall newline_free (parse_line <$> file_lines s).
Proof.
  split; apply Forall_fmap.
  - apply Forall_true. intros line. exact (proj1 (parse_line_fields line)).
  - eapply Forall_impl; [apply file_lines_free|].
    intros line Hline. exact (proj2 (parse_line_fields line) newline Hline).
Qed.

(** X1: whatever the save file holds, also when it is missing, no field
    of a record that [retrieve_data] returns holds a double quote or a
    newline. *)
Theorem retrieve_data_clean file :
  Forall quote_free (retrieve_data file)
  ∧ Forall newline_free (retrieve_data file).
Proof using.
  destruct file as [s|]; [|by split].
  rewrite retrieve_data_lines. apply parsed_lines_clean.
Qed.

(** Parsing what [save_data] writes for records without double quotes
    and newlines gives the records back, line by line. *)
Lemma parse_saved_lines items :
  Forall quote_free items → Forall newline_free items →
  parse_line <$> file_lines (save_data items) = items.
Proof.
  intros Hquote Hnewline. rewrite save_data_unlines, file_lines_unlines.
  - rewrite <- list_fmap_compose.
    rewrite <- (list_fmap_id items) at 2.
    apply Forall_fmap_ext_1.
    eapply Forall_impl; [exact Hquote|]. intros item Hitem. simpl.
    by apply parse_record_line.
  - apply Forall_fmap. eapply Forall_impl; [exact Hnewline|].
    intros item Hitem. by apply record_line_free.
Qed.

(** X2: a task list survives saving and loading exactly when no field of
    its records holds a double quote or a newline; so what was loaded from
    any file is saved and loaded again without change. *)
Theorem roundtrip_exactly_when_clean :
  (∀ items,
     retrieve_data (Some (save_data items)) = items
     ↔ Forall quote_free items ∧ Forall newline_free items)
  ∧ (∀ file,
       retrieve_data (Some (save_data (retrieve_data file)))
       = retrieve_data file).
Proof using.
  assert (∀ items, Forall quote_free items ∧ Forall newline_free items →
            retrieve_data (Some (save_data items)) = items) as Hback.
  { intros items [Hq Hn]. rewrite retrieve_data_lines.
    by apply parse_saved_lines. }
  split.
  - intros items. split; [|apply Hback].
    intros <-. rewrite retrieve_data_lines. apply parsed_lines_clean.
  - intros file. apply Hback.
    destruct file as [s|]; [|by split].
    rewrite retrieve_data_lines. apply parsed_lines_clean.
Qed.

Lemma match_record_line item post :
  quote_free item →
  match_here pattern (record_line item ++ post)
  = Some ([title item; description item; due_date item;
           print_bool (completed item)], post).
Proof.
  intros (Htitle & Hdesc & Hdate). unfold record_line, pattern.
  rewrite <- !app_assoc. simpl app.
  apply match_here_field; [done|]. apply match_here_char.
  apply match_here_field; [done|]. apply match_here_char.
  apply match_here_field; [done|]. apply match_here_char.
  apply match_here_field; [apply print_bool_free|]. done.
Qed.

Lemma regex_search_skip x s :
  x ≠ dquote → regex_search pattern (x :: s) = regex_search pattern s.
Proof.
  intros Hx. cbn [regex_search]. unfold pattern at 1. cbn [match_here].
  by rewrite bool_decide_eq_false_2.
Qed.

(** X3: a saved record is found anywhere in a line: text without a
    double quote in front of it and any text behind it are ignored, and
    the record is read as if it stood alone. *)
Theorem parse_line_lenient before item behind :
  free_of dquote before → quote_free item →
  parse_line (before ++ record_line item ++ behind) = item.
Proof using.
  intros Hbefore Hitem. unfold parse_line.
  assert (regex_search pattern (before ++ record_line item ++ behind)
          = regex_search pattern (record_line item ++ behind)) as ->.
  { induction before as [|x before IH]; [done|].
    apply not_elem_of_cons in Hbefore as [Hx Hbefore].
    simpl app. rewrite regex_search_skip by congruence. by apply IH. }
  erewrite regex_search_here by by apply match_record_line.
  unfold sub_str. cbn [nth]. rewrite parse_print_bool. by destruct item.
Qed.

(** ** Dates as they are typed *)

Lemma skip_space_blank ws s : blank ws → skip_space (ws ++ s) = skip_space s.
Proof. induction 1 as [|c ws Hc _ IH]; simpl; [done|]. by rewrite Hc. Qed.

Lemma no_digit_ahead_blank ws s :
  blank ws → no_digit_ahead s → no_digit_ahead (ws ++ s).
Proof.
  intros Hws Hs. destruct Hws as [|c ws Hc _]; [done|].
  intros c' tl [= <- _].
  destruct (isdigit c) eqn:Hd; [|done].
  by rewrite (isdigit_not_space c Hd) in Hc.
Qed.

Lemma conv_d_spaced ws n rest :
  blank ws → 0 <= n → in_int n → no_digit_ahead rest →
  conv_d (ws ++ print_int n ++ rest) = Some (n, rest).
Proof.
  intros Hws Hn Hint Hrest. unfold conv_d.
  rewrite skip_space_blank by done.
  exact (conv_d_print_int n rest Hn Hint Hrest).
Qed.

Lemma lit_slash_spaced ws rest :
  blank ws → lit_slash (ws ++ "/"%char :: rest) = Some rest.
Proof. intros Hws. unfold lit_slash. by rewrite skip_space_blank. Qed.

(** The text of a date with white space before each number and each
    slash, and anything behind the year. *)
Lemma sscanf_date_spaced ws1 ws2 ws3 ws4 ws5 day month year behind :
  blank ws1 → blank ws2 → blank ws3 → blank ws4 → blank ws5 →
  no_digit_ahead behind →
  0 <= day → 0 <= month → 0 <= year →
  in_int day → in_int month → in_int year →
  sscanf_date (ws1 ++ print_int day ++ ws2 ++ str "/" ++ ws3
               ++ print_int month ++ ws4 ++ str "/" ++ ws5
               ++ print_int year ++ behind)
  = (3, [day; month; year]).
Proof.
  intros. unfold sscanf_date. change (str "/") with ["/"%char]. simpl app.
  rewrite conv_d_spaced; [|done..|].
  2: { apply no_digit_ahead_blank; [done|]. by intros ?? [= <- _]. }
  rewrite lit_slash_spaced by done. simpl mbind.
  rewrite conv_d_spaced; [|done..|].
  2: { apply no_digit_ahead_blank; [done|]. by intros ?? [= <- _]. }
  rewrite lit_slash_spaced by done. simpl mbind.
  by rewrite conv_d_spaced.
Qed.

(** X4: white space before each number and before each slash, and any
    text behind the year that does not begin with a digit, change nothing:
    the line is as valid as the canonical text of its three numbers, and
    [get_date_input] would return that canonical text. *)
Theorem date_layout_ignored ws1 ws2 ws3 ws4 ws5 day month year behind :
  blank ws1 → blank ws2 → blank ws3 → blank ws4 → blank ws5 →
  no_digit_ahead behind →
  0 <= day → 0 <= month → 0 <= year →
  in_int day → in_int month → in_int year →
  let typed := ws1 ++ print_int day ++ ws2 ++ str "/" ++ ws3
               ++ print_int month ++ ws4 ++ str "/" ++ ws5
               ++ print_int year ++ behind in
  is_valid_date typed = is_valid_date (join_date day month year)
  ∧ canonical_date typed = Some (join_date day month year)
  ∧ (is_valid_date typed = true
     ↔ 1 <= year ∧ 1 <= month <= 12 ∧ 1 <= day
       ∧ day <= spec_days_in_month month year).
Proof.
  intros Hw1 Hw2 Hw3 Hw4 Hw5 Hbehind Hd Hm Hy Hid Him Hiy typed.
  assert (sscanf_date typed = (3, [day; month; year])) as Htyped
    by by apply sscanf_date_spaced.
  assert (sscanf_date (join_date day month year) = (3, [day; month; year]))
    as Hjoin by by apply sscanf_date_join.
  split_and!.
  - apply eq_true_iff_eq.
    rewrite (is_valid_date_scanned _ _ _ _ Htyped).
    by rewrite (is_valid_date_scanned _ _ _ _ Hjoin).
  - by apply canonical_date_join.
  - by apply is_valid_date_scanned.
Qed.

(** ** Reading a date *)

Lemma get_date_loop_reads fuel date_str w bad good rest :
  failbit w = false → cin w = bad ++ good :: rest →
  Forall (λ l, is_valid_date l = false) bad →
  is_valid_date good = true →
  (length bad < fuel)%nat →
  get_date_loop fuel date_str w
  = Ok good {| todo_items := todo_items w; cin := rest; failbit := false;
               cout := cout w ++ replicate (length bad)
                                   (str "Please enter a valid date: ") |}.
Proof.
  intros Hgood Hcin Hbad Hvalid. revert fuel date_str w Hgood Hcin.
  induction Hbad as [|l bad Hl _ IH]; intros fuel date_str w Hgood Hcin Hfuel.
  - destruct fuel as [|fuel]; [simpl in Hfuel; lia|].
    simpl. unfold bind, getline. rewrite Hgood, Hcin. simpl.
    rewrite Hvalid. unfold ret, set_cin. simpl.
    by rewrite Hgood, app_nil_r.
  - destruct fuel as [|fuel]; [simpl in Hfuel; lia|].
    simpl. unfold bind at 1, getline. rewrite Hgood, Hcin. simpl.
    rewrite Hl. unfold bind, print.
    rewrite (IH fuel l _); [|done|done|simpl in Hfuel; lia].
    simpl. f_equal. f_equal. by rewrite <- app_assoc.
Qed.

Lemma get_date_input_reads w bad good rest result :
  failbit w = false → cin w = bad ++ good :: rest →
  Forall (λ l, is_valid_date l = false) bad →
  is_valid_date good = true →
  canonical_date good = Some result →
  get_date_input w
  = Ok result {| todo_items := todo_items w; cin := rest; failbit := false;
                 cout := cout w ++ replicate (length bad)
                           (str "Please enter a valid date: ") |}.
Proof.
  intros Hgood Hcin Hbad Hvalid Hresult. unfold get_date_input, bind.
  rewrite (get_date_loop_reads _ _ w bad good rest); [|done..|].
  - by rewrite Hresult.
  - rewrite Hcin, length_app. simpl. lia.
Qed.

(** X5: [get_date_input] passes over every invalid line, asking again
    once for each, and returns the canonical text of the first valid
    line, leaving the lines behind it unread and the task list as it
    was. *)
Theorem get_date_input_first_valid w bad good rest :
  failbit w = false → cin w = bad ++ good :: rest →
  Forall (λ l, is_valid_date l = false) bad →
  is_valid_date good = true →
  ∃ result,
    canonical_date good = Some result
    ∧ get_date_input w
      = Ok result {| todo_items := todo_items w; cin := rest;
                     failbit := false;
                     cout := cout w ++ replicate (length bad)
                               (str "Please enter a valid date: ") |}.
Proof.
  intros Hgood Hcin Hbad Hvalid.
  destruct (canonical_date_valid good Hvalid) as [result Hresult].
  exists result. split; [done|].
  by apply (get_date_input_reads w bad good rest result).
Qed.

(** ** Adding and editing, step by step *)

(** X6: given a title that is not empty, a description and then lines
    up to a valid date, [add] appends exactly one record: that title and
    description, the canonical text of the date, not completed.  The
    records already there stay, and the lines behind the date stay
    unread. *)
Theorem add_appends w new_title new_description bad good rest result :
  failbit w = false →
  cin w = new_title :: new_description :: bad ++ good :: rest →
  new_title ≠ [] →
  Forall (λ l, is_valid_date l = false) bad →
  is_valid_date good = true →
  canonical_date good = Some result →
  add w
  = Ok () {| todo_items :=
               todo_items w ++ [{| title := new_title;
                                   description := new_description;
                                   due_date := result;
                                   completed := false |}];
             cin := rest;
             failbit := false;
             cout := cout w ++
               [str "Enter task details (Empty to abort operation): ";
                str "Title: "; str "Description: ";
                str "Due Date (DD/MM/YYYY): "]
               ++ replicate (length bad) (str "Please enter a valid date: ")
               ++ [str "Task added successfully"] |}.
Proof.
  intros Hgood Hcin Htitle Hbad Hvalid Hresult.
  unfold add, bind at 1 2 3, print at 1 2, getline at 1. simpl.
  rewrite Hgood, Hcin.
  destruct new_title as [|c new_title]; [done|].
  unfold bind at 1 2 3, print at 1 2, getline at 1. simpl. rewrite Hgood.
  unfold bind at 1.
  rewrite (get_date_input_reads _ bad good rest result); [|simpl; done..].
  unfold bind, push_back, print, set_items, set_cout. simpl.
  f_equal. f_equal. by rewrite <- !app_assoc.
Qed.

(** X7: given a valid position, a title that is not empty, a
    description and then lines up to a valid date, [edit] replaces the
    record at that position by one with the new title, description and
    canonical date and the old completion flag.  The list keeps its
    length and every other record. *)
Theorem edit_replaces w position old new_title new_description bad good rest
    result :
  next_entry w
  = Number position (new_title :: new_description :: bad ++ good :: rest) →
  1 <= position <= Z.of_nat (length (todo_items w)) →
  todo_items w !! Z.to_nat (position - 1) = Some old →
  new_title ≠ [] →
  Forall (λ l, is_valid_date l = false) bad →
  is_valid_date good = true →
  canonical_date good = Some result →
  let task := {| title := new_title; description := new_description;
                 due_date := result; completed := completed old |} in
  let items := <[Z.to_nat (position - 1) := task]> (todo_items w) in
  edit w
  = Ok () {| todo_items := items;
             cin := rest;
             failbit := false;
             cout := cout w ++
               [prompt (str "edit");
                str "Enter task details (Empty to abort operation): ";
                str "Title (was " ++ title old ++ str "): ";
                str "Description: (was " ++ description old ++ str "): ";
                str "Due Date (DD/MM/YYYY, was " ++ due_date old ++ str "): "]
               ++ replicate (length bad) (str "Please enter a valid date: ")
               ++ [str "Task edited successfully"] |}
  ∧ length items = length (todo_items w)
  ∧ items !! Z.to_nat (position - 1) = Some task
  ∧ ∀ j, j ≠ Z.to_nat (position - 1) → items !! j = todo_items w !! j.
Proof.
  intros Hentry Hpos Hold Htitle Hbad Hvalid Hresult task items.
  split_and!.
  - unfold edit. rewrite with_position_step, Hentry.
    destruct (Z.eqb_spec position 0) as [->|_]; [lia|].
    destruct (Z.leb_spec 1 position); [|lia].
    destruct (Z.leb_spec position (Z.of_nat (length (todo_items w)))); [|lia].
    simpl. destruct (Z.eqb_spec (position - 1) (-1)); [lia|].
    unfold bind at 1. rewrite (at_index_lookup _ _ old) by (done || lia).
    unfold bind at 1 2 3, print at 1 2, getline at 1. simpl.
    destruct new_title as [|c new_title]; [done|].
    unfold bind at 1 2 3, print at 1 2, getline at 1. simpl.
    unfold bind at 1.
    rewrite (get_date_input_reads _ bad good rest result); [|simpl; done..].
    unfold bind, assign_index, print.
    rewrite in_bounds_true by (simpl; lia).
    unfold set_items, set_cout. simpl.
    f_equal. f_equal. by rewrite <- !app_assoc.
  - apply length_insert.
  - apply list_lookup_insert_eq. by apply lookup_lt_Some in Hold.
  - intros j Hj. by apply list_lookup_insert_ne.
Qed.

(** ** Marking and removing *)

Lemma next_entry_input w w' :
  cin w' = cin w → failbit w' = failbit w → next_entry w' = next_entry w.
Proof. unfold next_entry. by intros -> ->. Qed.

(** X8: marking is idempotent: after a record is marked, marking the
    same position again reports that it is already completed and leaves
    the list as the first call left it. *)
Theorem mark_twice w position rest rest' item :
  next_entry w = Number position rest →
  next_entry (after_entry rest [] w) = Number position rest' →
  1 <= position <= Z.of_nat (length (todo_items w)) →
  todo_items w !! Z.to_nat (position - 1) = Some item →
  ∃ w1 w2,
    mark w = Ok () w1 ∧ mark w1 = Ok () w2
    ∧ todo_items w1
      = <[Z.to_nat (position - 1) := with_completed true item]> (todo_items w)
    ∧ todo_items w2 = todo_items w1
    ∧ last (cout w2) = Some (str "Task is already marked as completed.").
Proof using.
  intros Hentry Hentry' Hpos Hitem.
  pose proof (lookup_lt_Some _ _ _ Hitem) as Hlt.
  assert (∃ w1, mark w = Ok () w1
            ∧ todo_items w1
              = <[Z.to_nat (position - 1) := with_completed true item]>
                  (todo_items w)
            ∧ cin w1 = rest ∧ failbit w1 = false)
    as (w1 & Hrun1 & H1 & Hc1 & Hf1).
  { rewrite (mark_accepted w position rest item) by done.
    destruct (completed item) eqn:Hdone.
    - eexists. split; [done|]. split_and!; [|done..]. simpl.
      symmetry. apply list_insert_id.
      rewrite Hitem. f_equal. destruct item. simpl in Hdone. by subst.
    - eexists. by split. }
  assert (next_entry w1 = Number position rest') as Hnext.
  { rewrite <- Hentry'. apply next_entry_input; by simpl. }
  assert (todo_items w1 !! Z.to_nat (position - 1)
          = Some (with_completed true item)) as Hitem1.
  { rewrite H1. by apply list_lookup_insert_eq. }
  exists w1. eexists. split; [done|].
  rewrite (mark_accepted w1 position rest' (with_completed true item));
    [|done| |done].
  - simpl. split; [done|]. split_and!; [done|done|]. apply last_two.
  - rewrite H1. by rewrite length_insert.
Qed.

Lemma skip_lines_blank ls : Forall blank ls → skip_lines ls = [].
Proof.
  induction 1 as [|l ls Hl _ IH]; simpl; [done|].
  rewrite <- (app_nil_r l), skip_space_blank by done. done.
Qed.

(** X9: when only blank lines follow a valid position, so that the input
    ends before any confirmation, [remove] reads the confirmation
    character although nothing was ever stored in it. *)
Theorem remove_without_confirmation w position rest :
  next_entry w = Number position rest →
  1 <= position <= Z.of_nat (length (todo_items w)) →
  Forall blank rest →
  remove w = Fault Uninitialised.
Proof using.
  intros Hentry Hpos Hrest.
  destruct (index_lookup (position - 1) (todo_items w)) as [item Hitem]; [lia|].
  apply (remove_unconfirmed w position rest item); [done..|].
  unfold next_char. by rewrite skip_lines_blank.
Qed.

(** X10: the position 0 ends [mark], [edit] and [remove] at once: after
    the prompt and the abort message the call returns, the task list is
    as before and the lines behind the 0 are unread. *)
Theorem zero_aborts w rest :
  next_entry w = Number 0 rest →
  mark w = Ok () (after_entry rest [prompt (str "mark"); str "Abort task."] w)
  ∧ edit w
    = Ok () (after_entry rest [prompt (str "edit"); str "Abort task."] w)
  ∧ remove w
    = Ok () (after_entry rest [prompt (str "remove"); str "Abort task."] w).
Proof.
  intros Hentry. split_and!.
  - unfold mark. by rewrite with_position_step, Hentry.
  - unfold edit. by rewrite with_position_step, Hentry.
  - unfold remove. by rewrite with_position_step, Hentry.
Qed.

(** ** Viewing *)

Lemma view_blocks_cons k item (items : TodoItems) :
  concat (imap (λ i, view_block (k + i)) (item :: items))
  = view_block k item ++ concat (imap (λ i, view_block (S k + i)) items).
Proof.
  cbn [imap concat]. rewrite Nat.add_0_r. f_equal. f_equal.
  apply imap_ext. intros i x _. simpl. by rewrite Nat.add_succ_r.
Qed.

Lemma view_loop_writes items count w :
  view_loop items (Z.of_nat count + 1) w
  = Ok () (set_cout
             (cout w ++ concat (imap (λ i, view_block (count + i)) items)) w).
Proof.
  revert count w. induction items as [|item items IH]; intros count w.
  - simpl. unfold ret, set_cout. rewrite app_nil_r. by destruct w.
  - rewrite view_blocks_cons.
    cbn [view_loop]. unfold bind at 1 2 3 4 5 6, print. cbn [set_cout cout].
    replace (Z.of_nat count + 1 + 1) with (Z.of_nat (S count) + 1) by lia.
    rewrite IH. unfold set_cout, view_block. cbn [todo_items cin failbit cout].
    by rewrite <- !app_assoc.
Qed.

Lemma view_blocks_length k (items : TodoItems) :
  length (concat (imap (λ i, view_block (k + i)) items))
  = (6 * length items)%nat.
Proof.
  revert k. induction items as [|item items IH]; intros k; [done|].
  rewrite view_blocks_cons, length_app, IH. simpl. lia.
Qed.

Lemma view_blocks_lookup k (items : TodoItems) i item j :
  items !! i = Some item → (j < 6)%nat →
  concat (imap (λ i, view_block (k + i)) items) !! (6 * i + j)%nat
  = view_block (k + i) item !! j.
Proof.
  revert k i. induction items as [|x items IH]; intros k i Hi Hj; [done|].
  rewrite view_blocks_cons. destruct i as [|i].
  - injection Hi as ->. rewrite Nat.add_0_r.
    by rewrite lookup_app_l by (simpl; lia).
  - rewrite lookup_app_r by (simpl; lia).
    replace (6 * S i + j - length (view_block k x))%nat
      with (6 * i + j)%nat by (simpl; lia).
    rewrite IH by done. by rewrite Nat.add_succ_r.
Qed.

(** X11: [view] changes nothing but the output.  After the heading it
    writes six chunks for every record, in the order of the list: an
    empty line, the position of the record counted from one and padded to
    three characters, and the title, description, due date and completion
    of that record. *)
Theorem view_lists_all w :
  Z.of_nat (length (todo_items w)) <= INT_MAX →
  ∃ out,
    view w = Ok () (set_cout (cout w ++ str "All Tasks" :: out) w)
    ∧ length out = (6 * length (todo_items w))%nat
    ∧ ∀ i item,
        todo_items w !! i = Some item →
        out !! (6 * i)%nat = Some []
        ∧ out !! (6 * i + 1)%nat = Some (printf_d3 (Z.of_nat i + 1))
        ∧ out !! (6 * i + 2)%nat = Some (str "Title: " ++ title item)
        ∧ out !! (6 * i + 3)%nat
          = Some (str "   Desc: " ++ description item)
        ∧ out !! (6 * i + 4)%nat
          = Some (str "   Due Date: " ++ due_date item)
        ∧ out !! (6 * i + 5)%nat
          = Some (str "   Completed: "
                  ++ (if completed item then str "Yes" else str "No")).
Proof using.
  intros _. exists (concat (imap (λ i, view_block (0 + i)) (todo_items w))).
  split_and!.
  - unfold view, bind, print. cbn [set_cout todo_items cout].
    pose proof (view_loop_writes (todo_items w) 0
                  (set_cout (cout w ++ [str "All Tasks"]) w)) as Hloop.
    change (Z.of_nat 0 + 1) with 1 in Hloop.
    rewrite Hloop. unfold set_cout. cbn [todo_items cin failbit cout].
    by rewrite <- app_assoc.
  - apply view_blocks_length.
  - intros i item Hitem.
    pose proof (λ j, view_blocks_lookup 0 (todo_items w) i item j Hitem) as Hb.
    split_and!;
      [rewrite <- (Nat.add_0_r (6 * i)); rewrite Hb by lia
      |rewrite Hb by lia..]; done.
Qed.

Lemma skip_lines_number n pad rest :
  0 <= n →
  skip_lines ((print_int n ++ pad) :: rest) = (print_int n ++ pad) :: rest.
Proof.
  intros Hn. rewrite print_int_nonneg by done. unfold print_nat.
  destruct (to_digits_head (Z.to_nat (Z.log2 n)) n [] Hn)
    as (c & tl & -> & Hc).
  simpl. by rewrite (isdigit_not_space c Hc).
Qed.

(** X12: the number [view] shows for a record selects that record: when
    the line typed at the position prompt is that number as [view] pads
    it, [get_item_position] returns the index of the record and reads
    nothing further. *)
Theorem shown_number_selects action w i item rest :
  todo_items w !! i = Some item →
  Z.of_nat (length (todo_items w)) <= INT_MAX →
  failbit w = false →
  cin w = printf_d3 (Z.of_nat i + 1) :: rest →
  get_item_position action w
  = Ok (Z.of_nat i) (after_entry rest [prompt action] w).
Proof using.
  intros Hitem Hmax Hgood Hcin.
  pose proof (lookup_lt_Some _ _ _ Hitem) as Hlt.
  assert (next_entry w = Number (Z.of_nat i + 1) rest) as Hentry.
  { unfold next_entry. rewrite Hgood, Hcin. unfold printf_d3.
    rewrite skip_lines_number by lia.
    rewrite print_int_nonneg by lia.
    rewrite scan_decimal_print_nat; [|lia|].
    - unfold in_int_b, INT_MIN, INT_MAX in *.
      destruct (Z.leb_spec (- 2 ^ 31) (Z.of_nat i + 1)); [|lia].
      by destruct (Z.leb_spec (Z.of_nat i + 1) (2 ^ 31 - 1)); [|lia].
    - intros c' tl'. destruct (3 - length (print_nat (Z.of_nat i + 1)))%nat;
        [done|]. by intros [= <- _]. }
  rewrite get_item_position_step, Hentry.
  destruct (Z.eqb_spec (Z.of_nat i + 1) 0); [lia|].
  destruct (Z.leb_spec 1 (Z.of_nat i + 1)); [|lia].
  destruct (Z.leb_spec (Z.of_nat i + 1) (Z.of_nat (length (todo_items w))));
    [|lia].
  simpl. do 2 f_equal. lia.
Qed.

(** ** A logic of calls *)

Lemma triple_bind {A B} J P (m : io A) Q (k : A → io B) R :
  triple J P m Q → (∀ a, triple J (Q a) (k a) R) → triple J P (bind m k) R.
Proof.
  intros Hm Hk w HP. specialize (Hm w HP). unfold post, bind in *.
  destruct (m w) as [a w'|items|e]; [|done..]. by apply Hk.
Qed.

Lemma triple_weaken {A} J (P P' : world → Prop) (m : io A)
    (Q Q' : A → world → Prop) :
  triple J P m Q → (∀ w, P' w → P w) → (∀ a w, Q a w → Q' a w) →
  triple J P' m Q'.
Proof.
  intros Hm HP HQ w HP'. specialize (Hm w (HP w HP')). unfold post in *.
  destruct (m w); auto.
Qed.

Lemma skip_space_suffix s : skip_space s `suffix_of` s.
Proof.
  induction s as [|c s IH]; simpl; [done|].
  destruct (isspace c); [by apply suffix_cons_r|done].
Qed.

Lemma closed_skip_lines Items Lines Field ls :
  closed Items Lines Field → Lines ls → Lines (skip_lines ls).
Proof.
  intros Hc. induction ls as [|l ls IH]; intros Hls; [done|]. simpl.
  pose proof (skip_space_suffix l) as Hsuffix.
  destruct (skip_space l) as [|c l'].
  - apply IH. by apply (closed_tail _ _ _ Hc l).
  - by apply (closed_suffix _ _ _ Hc l).
Qed.

Lemma closed_skip_rest Items Lines Field ls l rest :
  closed Items Lines Field → Lines ls → skip_lines ls = l :: rest →
  Lines rest.
Proof.
  intros Hc Hls Hskip.
  pose proof (closed_skip_lines _ _ _ ls Hc Hls) as H. rewrite Hskip in H.
  by apply (closed_tail _ _ _ Hc l).
Qed.

(** The lines an iteration of the position prompt leaves satisfy
    [Lines]. *)
Lemma closed_next_entry Items Lines Field w :
  closed Items Lines Field → inv Items Lines w →
  match next_entry w with
  | Number _ rest | NotNumber rest => Lines rest
  end.
Proof.
  intros Hc (_ & Hlines & Hdead). unfold next_entry.
  destruct (failbit w).
  { rewrite Hdead by done. apply (closed_nil _ _ _ Hc). }
  destruct (skip_lines (cin w)) as [|l rest] eqn:Hskip.
  { apply (closed_nil _ _ _ Hc). }
  pose proof (closed_skip_rest _ _ _ _ _ _ Hc Hlines Hskip).
  destruct (scan_decimal l) as [[n l']|]; [|done].
  by destruct (in_int_b n).
Qed.

Lemma inv_after_entry Items Lines rest out w :
  Items (todo_items w) → Lines rest →
  inv Items Lines (after_entry rest out w).
Proof. intros. by split_and!. Qed.

(** The position prompt keeps the invariant and returns the abort code
    or an index of the list. *)
Lemma triple_get_item_position Items Lines Field action :
  closed Items Lines Field →
  triple Items (inv Items Lines) (get_item_position action)
    (λ i w, inv Items Lines w ∧ failbit w = false
            ∧ (i = -1 ∨ 0 <= i <= Z.of_nat (length (todo_items w)) - 1)).
Proof.
  intros Hc w Hinv. unfold post, get_item_position. revert Hinv.
  generalize (S (length (cin w))). intros fuel. revert w.
  induction fuel as [|fuel IH]; intros w Hinv; [exact (proj1 Hinv)|].
  rewrite item_loop_step.
  pose proof (closed_next_entry _ _ _ w Hc Hinv) as Hrest.
  destruct Hinv as (Hitems & _).
  destruct (next_entry w) as [n rest|rest].
  - destruct (n =? 0).
    { split_and!; [by apply inv_after_entry|done|by left]. }
    destruct (Z.leb_spec 1 n); simpl.
    + destruct (Z.leb_spec n (Z.of_nat (length (todo_items w)))).
      * split_and!; [by apply inv_after_entry|done|]. right. simpl. lia.
      * apply IH. by apply inv_after_entry.
    + apply IH. by apply inv_after_entry.
  - apply IH. by apply inv_after_entry.
Qed.

Lemma triple_getline Items Lines Field old :
  closed Items Lines Field →
  triple Items (λ w, inv Items Lines w ∧ Field old) (getline old)
    (λ l w, inv Items Lines w ∧ Field l).
Proof.
  intros Hc w [Hinv Hold]. pose proof Hinv as (Hitems & Hlines & Hdead).
  unfold post, getline.
  destruct (failbit w) eqn:Hfail; [done|].
  destruct (cin w) as [|l rest] eqn:Hcin.
  - split; [|apply (closed_empty _ _ _ Hc)].
    unfold inv. simpl. by rewrite Hcin.
  - split; [|by apply (closed_line _ _ _ Hc l rest)].
    unfold inv. simpl. split_and!; [done| |congruence].
    by apply (closed_tail _ _ _ Hc l).
Qed.

Lemma triple_ignore_line Items Lines Field :
  closed Items Lines Field →
  triple Items (inv Items Lines) ignore_line (λ _, inv Items Lines).
Proof.
  intros Hc w Hinv. pose proof Hinv as (Hitems & Hlines & Hdead).
  unfold post, ignore_line.
  destruct (failbit w) eqn:Hfail; [done|].
  unfold inv. simpl. split_and!; [done| |congruence].
  destruct (cin w) as [|l rest]; [done|].
  by apply (closed_tail _ _ _ Hc l).
Qed.

Lemma triple_extract_char Items Lines Field :
  closed Items Lines Field →
  triple Items (inv Items Lines) extract_char
    (λ c w, inv Items Lines w ∧ (c = None → cin w = [] ∧ failbit w = true)).
Proof.
  intros Hc w Hinv. pose proof Hinv as (Hitems & Hlines & Hdead).
  unfold post, extract_char.
  destruct (failbit w) eqn:Hfail.
  { split; [done|]. intros _. split; [by apply Hdead|done]. }
  pose proof (closed_skip_lines _ _ _ _ Hc Hlines) as Hskip.
  pose proof (closed_nil _ _ _ Hc) as Hnil.
  destruct (skip_lines (cin w)) as [|[|c l] rest].
  - split; [|done]. unfold inv. by simpl.
  - split; [|done]. unfold inv. by simpl.
  - split; [|done]. unfold inv. simpl. split_and!; [done| |congruence].
    apply (closed_suffix _ _ _ Hc (c :: l)); [done|].
    by apply suffix_cons_r.
Qed.

Lemma triple_get_date_loop Items Lines Field fuel old :
  closed Items Lines Field → Field old →
  triple Items (inv Items Lines) (get_date_loop fuel old)
    (λ d w, inv Items Lines w ∧ is_valid_date d = true).
Proof.
  intros Hc. revert old.
  induction fuel as [|fuel IH]; intros old Hold; [by intros w0 [? _]|].
  cbn [get_date_loop].
  apply (triple_bind Items _ _ (λ l w, inv Items Lines w ∧ Field l)).
  - intros w0 Hinv0. by apply (triple_getline Items Lines Field).
  - intros l w0 [Hinv0 Hl]. unfold post.
    destruct (is_valid_date l) eqn:Hvalid; [done|].
    unfold bind, print. by apply (IH l Hl).
Qed.

(** A date read keeps the invariant and is the canonical text of a valid
    line. *)
Lemma triple_get_date_input Items Lines Field :
  closed Items Lines Field →
  triple Items (inv Items Lines) get_date_input
    (λ r w, inv Items Lines w ∧ from_valid r).
Proof.
  intros Hc w Hinv.
  refine (triple_bind Items (inv Items Lines)
            (get_date_loop (S (length (cin w))) [])
            (λ d w, inv Items Lines w ∧ is_valid_date d = true)
            _ _ _ _ w Hinv).
  - apply (triple_get_date_loop Items Lines Field); [done|].
    apply (closed_empty _ _ _ Hc).
  - intros d w' [Hinv' Hvalid]. unfold post.
    destruct (canonical_date_valid d Hvalid) as [r Hr]. rewrite Hr.
    split; [done|]. by exists d.
Qed.

Lemma triple_seq_print {A} J (P : world → Prop) s (m : io A) Q :
  (∀ w out, P w → P (set_cout out w)) →
  triple J P m Q → triple J P (print s ;; m) Q.
Proof. intros HP Hm w Hw. unfold post, bind, print. apply Hm. by apply HP. Qed.

Lemma triple_pure {A} J (P : world → Prop) (φ : Prop) (m : io A) Q :
  (φ → triple J P m Q) → triple J (λ w, P w ∧ φ) m Q.
Proof. intros H w [HP Hφ]. by apply H. Qed.

Lemma triple_frame {A} J P (m : io A) Q items :
  keeps_items m → triple J P m Q →
  triple J (λ w, P w ∧ todo_items w = items) m
    (λ a w, Q a w ∧ todo_items w = items).
Proof.
  intros Hk Hm w [HP Hitems]. specialize (Hk w). specialize (Hm w HP).
  unfold post in *. destruct (m w); [|done..]. split; [done|congruence].
Qed.

Lemma getline_keeps old : keeps_items (getline old).
Proof.
  intros w. unfold post.
  by destruct (getline_post old w) as (l & w' & -> & Hitems & _).
Qed.

Lemma get_date_input_keeps : keeps_items get_date_input.
Proof.
  intros w. eapply post_weaken; [apply get_date_input_post|..]; [|done..].
  by intros r w' [_ Hitems].
Qed.

Lemma extract_char_keeps : keeps_items extract_char.
Proof.
  intros w. unfold post, extract_char. destruct (failbit w); [done|].
  by destruct (skip_lines (cin w)) as [|[|c l] rest].
Qed.

(** [add] keeps the invariant. *)
Lemma triple_add Items Lines Field :
  closed Items Lines Field →
  triple Items (inv Items Lines) add (λ _, inv Items Lines).
Proof.
  intros Hc. unfold add.
  do 2 (apply triple_seq_print; [done|]).
  apply (triple_bind _ _ _ (λ l w, inv Items Lines w ∧ Field l)).
  { intros w Hw. apply (triple_getline Items Lines Field [] Hc).
    split; [done|apply (closed_empty _ _ _ Hc)]. }
  intros title. apply triple_pure. intros Htitle.
  destruct title as [|c t]; [by intros w Hw|].
  apply triple_seq_print; [done|].
  apply (triple_bind _ _ _ (λ l w, inv Items Lines w ∧ Field l)).
  { intros w Hw. apply (triple_getline Items Lines Field [] Hc).
    split; [done|apply (closed_empty _ _ _ Hc)]. }
  intros description. apply triple_pure. intros Hdesc.
  apply triple_seq_print; [done|].
  apply (triple_bind _ _ _ (λ r w, inv Items Lines w ∧ from_valid r));
    [by apply (triple_get_date_input Items Lines Field)|].
  intros r. apply triple_pure. intros Hr.
  intros w (Hitems & Hlines & Hdead). unfold post, bind, push_back, print.
  unfold inv. simpl. split_and!; [|done..].
  by apply (closed_push _ _ _ Hc).
Qed.

(** [mark] keeps the invariant. *)
Lemma triple_mark Items Lines Field :
  closed Items Lines Field →
  triple Items (inv Items Lines) mark (λ _, inv Items Lines).
Proof.
  intros Hc. unfold mark.
  apply (triple_bind _ _ _ _ _ _
           (triple_get_item_position Items Lines Field _ Hc)).
  intros i w (Hw & _ & Hi). unfold post.
  destruct (Z.eqb_spec i (-1)); [done|]. destruct Hi as [?|Hb]; [done|].
  destruct (index_lookup i (todo_items w) Hb) as [item Hitem].
  unfold bind at 1. rewrite (at_index_lookup i w item) by (lia || done).
  destruct (completed item); [done|].
  unfold bind, assign_completed, print. rewrite in_bounds_true by done.
  destruct Hw as (Hitems & Hlines & Hdead).
  unfold inv. simpl. split_and!; [|done..].
  by apply (closed_complete _ _ _ Hc).
Qed.

(** [edit] keeps the invariant. *)
Lemma triple_edit Items Lines Field :
  closed Items Lines Field →
  triple Items (inv Items Lines) edit (λ _, inv Items Lines).
Proof.
  intros Hc. unfold edit.
  apply (triple_bind _ _ _ _ _ _
           (triple_get_item_position Items Lines Field _ Hc)).
  intros i w (Hw & _ & Hi). unfold post.
  destruct (Z.eqb_spec i (-1)); [done|]. destruct Hi as [?|Hb]; [done|].
  destruct (index_lookup i (todo_items w) Hb) as [task Htask].
  unfold bind at 1. rewrite (at_index_lookup i w task) by (lia || done).
  destruct (closed_field _ _ _ Hc (todo_items w) task) as [Ht Hd];
    [apply Hw|by apply list_elem_of_lookup_2 in Htask|].
  remember (todo_items w) as items eqn:Hitems.
  assert (inv Items Lines w ∧ todo_items w = items) as Hstart by done.
  clear Hitems Hw. revert w Hstart.
  do 2 (apply triple_seq_print; [done|]).
  apply (triple_bind _ _ _
           (λ l w, (inv Items Lines w ∧ Field l) ∧ todo_items w = items)).
  { apply triple_frame; [apply getline_keeps|].
    intros w Hw. by apply (triple_getline Items Lines Field _ Hc). }
  intros new_title w [[Hw Htitle] Hitems]. revert w Hw Hitems.
  destruct new_title as [|c t]; [by intros w Hw _|].
  intros w Hw Hitems.
  assert (inv Items Lines w ∧ todo_items w = items) as Hstart by done.
  clear Hitems Hw. revert w Hstart.
  apply triple_seq_print; [done|].
  apply (triple_bind _ _ _
           (λ l w, (inv Items Lines w ∧ Field l) ∧ todo_items w = items)).
  { apply triple_frame; [apply getline_keeps|].
    intros w Hw. by apply (triple_getline Items Lines Field _ Hc). }
  intros new_description w [[Hw Hdesc] Hitems].
  assert (inv Items Lines w ∧ todo_items w = items) as Hstart by done.
  clear Hitems Hw. revert w Hstart.
  apply triple_seq_print; [done|].
  apply (triple_bind _ _ _
           (λ r w, (inv Items Lines w ∧ from_valid r) ∧ todo_items w = items)).
  { apply triple_frame; [apply get_date_input_keeps|].
    by apply (triple_get_date_input Items Lines Field). }
  intros r w [[(Hitems' & Hlines & Hdead) Hr] Hitems].
  unfold post, bind, assign_index, print.
  rewrite Hitems, in_bounds_true by done.
  unfold inv. simpl. split_and!; [|done..].
  rewrite Hitems in Hitems'. by apply (closed_assign _ _ _ Hc).
Qed.

(** [remove] keeps the invariant. *)
Lemma triple_remove Items Lines Field :
  closed Items Lines Field →
  triple Items (inv Items Lines) remove (λ _, inv Items Lines).
Proof.
  intros Hc. unfold remove.
  apply (triple_bind _ _ _ _ _ _
           (triple_get_item_position Items Lines Field _ Hc)).
  intros i w (Hw & _ & Hi). unfold post.
  destruct (Z.eqb_spec i (-1)); [done|]. destruct Hi as [?|Hb]; [done|].
  destruct (index_lookup i (todo_items w) Hb) as [item Hitem].
  unfold bind at 1. rewrite (at_index_lookup i w item) by (lia || done).
  remember (todo_items w) as items eqn:Hitems.
  assert (inv Items Lines w ∧ todo_items w = items) as Hstart by done.
  clear Hitems Hw. revert w Hstart.
  apply triple_seq_print; [done|].
  apply (triple_bind _ _ _
           (λ (c : option ascii) w,
              inv Items Lines w ∧ todo_items w = items)).
  { eapply triple_weaken;
      [apply (triple_frame _ _ _ _ items extract_char_keeps
                (triple_extract_char Items Lines Field Hc))|done|].
    by intros c w [[Hw _] Hitems]. }
  intros [choice|]; [|by intros w Hw].
  apply (triple_bind _ _ _ (λ _, inv Items Lines));
    [|intros _; by apply (triple_ignore_line Items Lines Field)].
  intros w [(Hitems' & Hlines & Hdead) Hitems]. unfold post.
  destruct (_ || _); [|done].
  unfold bind, erase, print. rewrite Hitems, in_bounds_true by done.
  unfold inv. simpl. split_and!; [|done..].
  rewrite Hitems in Hitems'. by apply (closed_delete _ _ _ Hc).
Qed.

(** [view] changes the output only. *)
Lemma view_state w :
  ∃ out, view w = Ok () (set_cout out w).
Proof.
  unfold view, bind, print.
  pose proof (view_loop_writes (todo_items w) 0
                (set_cout (cout w ++ [str "All Tasks"]) w)) as Hloop.
  change (Z.of_nat 0 + 1) with 1 in Hloop. cbn [todo_items set_cout].
  cbn [todo_items set_cout] in Hloop. rewrite Hloop. by eexists.
Qed.

Lemma triple_view Items Lines :
  triple Items (inv Items Lines) view (λ _, inv Items Lines).
Proof.
  intros w Hw. unfold post. by destruct (view_state w) as [out ->].
Qed.

(** Each case of the switch keeps the invariant. *)
Lemma triple_run_command Items Lines Field command :
  closed Items Lines Field →
  triple Items (inv Items Lines) (run_command command) (λ _, inv Items Lines).
Proof.
  intros Hc. unfold run_command.
  repeat case_bool_decide;
    eauto using triple_add, triple_view, triple_mark, triple_edit,
      triple_remove.
  by intros w Hw.
Qed.

(** The command read is one of the menu. *)
Lemma triple_read_command Items Lines Field fuel command :
  closed Items Lines Field →
  triple Items (inv Items Lines) (read_command fuel command)
    (λ c w, inv Items Lines w ∧ in_menu c = true).
Proof.
  intros Hc. revert command.
  induction fuel as [|fuel IH]; intros command; [by intros w [? _]|].
  cbn [read_command].
  apply (triple_bind _ _ _ (λ (c : option ascii) w, inv Items Lines w)).
  { eapply triple_weaken;
      [apply (triple_extract_char Items Lines Field Hc)|done|].
    by intros c w [Hw _]. }
  intros extracted.
  apply (triple_bind _ _ _ (λ _, inv Items Lines));
    [by apply (triple_ignore_line Items Lines Field)|].
  intros _.
  destruct (if extracted is Some c then Some c else command) as [c|];
    [|by intros w Hw].
  destruct (in_menu c) eqn:Hmenu; [by intros w Hw|].
  apply triple_seq_print; [done|]. apply IH.
Qed.

(** [main] returns only from the exit command, with the code 0 and the
    task list of that moment saved. *)
Lemma triple_main_loop Items Lines Field fuel command :
  closed Items Lines Field →
  triple Items (inv Items Lines) (main_loop fuel command)
    (λ r w, inv Items Lines w ∧ r = (0, save_data (todo_items w))).
Proof.
  intros Hc. revert command.
  induction fuel as [|fuel IH]; intros command; [by intros w [? _]|].
  cbn [main_loop].
  do 8 (apply triple_seq_print; [done|]).
  apply (triple_bind _ _ _ (λ c w, inv Items Lines w ∧ in_menu c = true)).
  { intros w Hw.
    by apply (triple_read_command Items Lines Field _ command Hc). }
  intros c. apply triple_pure. intros _.
  apply triple_seq_print; [done|].
  apply (triple_bind _ _ _ (λ _, inv Items Lines)); [by intros w Hw|].
  intros _. case_bool_decide.
  - intros w Hw. unfold post, bind at 1, write_save_file.
    unfold bind at 1 2, print.
    pose proof (triple_ignore_line Items Lines Field Hc
                  (set_cout
                     (cout w
                      ++ [str "Thanks for using the application, have a nice day!"]
                      ++ [str "Press enter to exit ..."]) w) Hw) as Hignore.
    revert Hignore. unfold post, bind, ignore_line, system_clear, ret.
    cbn [failbit set_cout cout todo_items cin].
    by destruct (failbit w).
  - apply (triple_bind _ _ _ (λ _, inv Items Lines));
      [by apply (triple_run_command Items Lines Field)|].
    intros _. apply triple_seq_print; [done|].
    apply (triple_bind _ _ _ (λ _, inv Items Lines));
      [by apply (triple_ignore_line Items Lines Field)|].
    intros _.
    apply (triple_bind _ _ _ (λ _, inv Items Lines)); [by intros w Hw|].
    intros _. apply IH.
Qed.

(** ** Sessions *)

Lemma digits_clean s : Forall (λ c, isdigit c = true) s → clean_line s.
Proof.
  intros Hs. unfold clean_line, free_of.
  split; intros Hin; apply (proj1 (Forall_forall _ _) Hs) in Hin; done.
Qed.

Lemma print_int_clean n : 1 <= n → clean_line (print_int n).
Proof. intros Hn. apply digits_clean. by apply print_int_unpadded. Qed.

Lemma clean_line_app s t : clean_line s → clean_line t → clean_line (s ++ t).
Proof.
  unfold clean_line, free_of. intros [? ?] [? ?].
  rewrite !not_elem_of_app. done.
Qed.

(** A date as [get_date_input] returns it holds digits and slashes
    only. *)
Lemma from_valid_clean r : from_valid r → clean_line r.
Proof using.
  intros (s & Hvalid & Hcanon).
  destruct (is_valid_date_three s Hvalid)
    as (day & month & year & Hscan & Hy & Hm & Hd & _).
  rewrite (canonical_date_join _ _ _ _ Hscan) in Hcanon.
  injection Hcanon as <-. unfold join_date.
  assert (clean_line (str "/")) as Hslash.
  { split; intros [?|[]%elem_of_nil]%elem_of_cons; done. }
  repeat apply clean_line_app; (done || apply print_int_clean; lia).
Qed.

Lemma clean_items_item items item :
  clean_items items → item ∈ items →
  clean_line (title item) ∧ clean_line (description item)
  ∧ clean_line (due_date item).
Proof.
  intros [Hq Hn] Hin.
  destruct (proj1 (Forall_forall _ _) Hq item Hin) as (? & ? & ?).
  destruct (proj1 (Forall_forall _ _) Hn item Hin) as (? & ? & ?).
  by repeat split.
Qed.

Lemma clean_items_record t d r b :
  clean_line t → clean_line d → clean_line r →
  quote_free {| title := t; description := d; due_date := r; completed := b |}
  ∧ newline_free
      {| title := t; description := d; due_date := r; completed := b |}.
Proof. intros [? ?] [? ?] [? ?]. by repeat split. Qed.

(** Lines without double quote and newline keep the task list free of
    them. *)
Lemma closed_clean : closed clean_items (Forall clean_line) clean_line.
Proof using.
  split.
  - done.
  - intros l ls Hls. by apply Forall_cons in Hls as [_ ?].
  - intros l l' ls [[Hq Hn] Hls]%Forall_cons [k ->].
    apply Forall_cons. split; [|done].
    unfold clean_line, free_of in *. rewrite !not_elem_of_app in *. tauto.
  - intros l ls Hls. by apply Forall_cons in Hls as [? _].
  - split; apply not_elem_of_nil.
  - intros items item Hitems Hin.
    destruct (clean_items_item items item Hitems Hin) as (? & ? & _). done.
  - intros items t d r [Hq Hn] Ht Hd Hr%from_valid_clean.
    destruct (clean_items_record t d r false Ht Hd Hr).
    split; apply Forall_app; split; (done || by apply Forall_singleton).
  - intros items i old t d r [Hq Hn] _ Ht Hd Hr%from_valid_clean.
    destruct (clean_items_record t d r (completed old) Ht Hd Hr).
    split; by apply Forall_insert.
  - intros items i b [Hq Hn].
    split; (apply Forall_alter; [done|]); intros item _ Hitem; exact Hitem.
  - intros items i [Hq Hn]. split; by apply Forall_delete.
Qed.

(** Every date that enters the list comes from [get_date_input]. *)
Lemma closed_dates : closed dates_ok (λ _, True) (λ _, True).
Proof using int_conv_range int_conv_exact.
  split; try done.
  - intros items t d r Hitems _ _ Hr%from_valid_ok.
    apply Forall_app. split; [done|]. by apply Forall_singleton.
  - intros items i old t d r Hitems _ _ _ Hr%from_valid_ok.
    by apply Forall_insert.
  - intros items i b Hitems. apply Forall_alter; [done|].
    intros item _ Hitem. exact Hitem.
  - intros items i Hitems. by apply Forall_delete.
Qed.

Lemma closed_any : closed (λ _, True) (λ _, True) (λ _, True).
Proof using. by split. Qed.

Lemma main_initial file input :
  main file input = main_loop (S (length input)) None (initial file input).
Proof. done. Qed.

(** X13: a session whose input lines hold no double quote and no newline
    ends with a save file that loads back as the task list of the moment
    of the exit, whatever the save file held at the start; the exit code
    is 0. *)
Theorem saved_session_reloads file input code saved w' :
  Forall clean_line input →
  main file input = Ok (code, saved) w' →
  code = 0 ∧ saved = save_data (todo_items w')
  ∧ retrieve_data (Some saved) = todo_items w'.
Proof using.
  intros Hinput Hrun.
  assert (clean_items (retrieve_data file)) as Hfile.
  { destruct file as [s|]; [|by split].
    rewrite retrieve_data_lines. apply parsed_lines_clean. }
  pose proof (triple_main_loop clean_items (Forall clean_line) clean_line
                (S (length input)) None closed_clean (initial file input))
    as Hloop.
  unfold post in Hloop. rewrite <- main_initial, Hrun in Hloop.
  destruct Hloop as [([Hq Hn] & _) [= -> ->]]; [by split_and!|].
  split_and!; [done..|].
  rewrite retrieve_data_lines. by apply parse_saved_lines.
Qed.

(** X14: when every due date loaded from the save file is a valid date
    in canonical form, so is every due date of the task list at the exit,
    and of the list a session that never ends is left with. *)
Theorem session_keeps_dates file input :
  dates_ok (retrieve_data file) →
  match main file input with
  | Ok _ w' => dates_ok (todo_items w')
  | Hang items => dates_ok items
  | Fault _ => True
  end.
Proof using int_conv_range int_conv_exact.
  intros Hfile.
  pose proof (triple_main_loop dates_ok (λ _, True) (λ _, True)
                (S (length input)) None closed_dates (initial file input))
    as Hloop.
  unfold post in Hloop. rewrite <- main_initial in Hloop.
  destruct (main file input) as [r w'|items|e]; [|by apply Hloop|done].
  by apply Hloop.
Qed.

(** X15: whatever the save file and the input hold, [main] never indexes
    the task vector outside its bounds. *)
Theorem main_stays_in_bounds file input :
  main file input ≠ Fault OutOfRange.
Proof using.
  pose proof (triple_main_loop (λ _, True) (λ _, True) (λ _, True)
                (S (length input)) None closed_any (initial file input))
    as Hloop.
  unfold post in Hloop. rewrite <- main_initial in Hloop.
  intros Hrun. rewrite Hrun in Hloop. by specialize (Hloop ltac:(done)).
Qed.

(** X16: when the first character of the input that is not white space
    is the exit command, [main] writes the list it loaded back to the save
    file and returns 0, having dropped the rest of that line and the line
    after it. *)
Theorem exit_at_once file input l rest :
  skip_lines input = ("6"%char :: l) :: rest →
  ∃ w', main file input = Ok (0, save_data (retrieve_data file)) w'
    ∧ todo_items w' = retrieve_data file ∧ cin w' = tail rest.
Proof using.
  intros Hskip. rewrite main_initial. cbn [main_loop].
  unfold bind at 1 2 3 4 5 6 7 8, print, initial.
  cbn [set_cout todo_items cin failbit cout]. unfold bind at 1.
  cbn [read_command]. unfold bind at 1, extract_char.
  cbn [set_cout todo_items cin failbit cout]. rewrite Hskip.
  unfold bind, ignore_line, system_clear, ret, write_save_file, print.
  cbn. eexists. by split_and!.
Qed.

(** X17: when the input holds nothing but white space, [main] tests the
    command although nothing was ever stored in it. *)
Theorem blank_input_faults file input :
  Forall blank input → main file input = Fault Uninitialised.
Proof using.
  intros Hblank%skip_lines_blank. rewrite main_initial. cbn [main_loop].
  unfold bind at 1 2 3 4 5 6 7 8, print, initial.
  cbn [set_cout todo_items cin failbit cout]. unfold bind at 1.
  cbn [read_command]. unfold bind at 1, extract_char.
  cbn [set_cout todo_items cin failbit cout]. by rewrite Hblank.
Qed.

Lemma closed_free_of x : closed (λ _, True) (Forall (free_of x)) (λ _, True).
Proof using.
  split; try done.
  - intros l ls Hls. by apply Forall_cons in Hls as [_ ?].
  - intros l l' ls [Hl Hls]%Forall_cons [k ->].
    apply Forall_cons. split; [|done].
    unfold free_of in *. rewrite not_elem_of_app in Hl. tauto.
Qed.

(** A character that is on no line of the input is not extracted. *)
Lemma triple_extract_char_free Items Field x :
  closed Items (Forall (free_of x)) Field →
  triple Items (inv Items (Forall (free_of x))) extract_char
    (λ c w, inv Items (Forall (free_of x)) w ∧ c ≠ Some x).
Proof.
  intros Hc w Hw.
  pose proof (triple_extract_char Items _ Field Hc w Hw) as Hinv.
  pose proof (closed_skip_lines _ _ _ _ Hc (proj1 (proj2 Hw))) as Hskip.
  revert Hinv. unfold post, extract_char.
  destruct (failbit w); [by intros [? _]|].
  destruct (skip_lines (cin w)) as [|[|c l] rest]; intros [? _];
    (split; [done|]); [done..|].
  apply Forall_cons in Hskip as [Hfree _].
  intros [= ->]. apply Hfree. by left.
Qed.

Lemma triple_read_command_free Items Field x fuel command :
  closed Items (Forall (free_of x)) Field → command ≠ Some x →
  triple Items (inv Items (Forall (free_of x))) (read_command fuel command)
    (λ c w, inv Items (Forall (free_of x)) w ∧ c ≠ x).
Proof.
  intros Hc. revert command.
  induction fuel as [|fuel IH]; intros command Hcommand;
    [by intros w [? _]|].
  cbn [read_command].
  apply (triple_bind _ _ _ _ _ _ (triple_extract_char_free Items Field x Hc)).
  intros extracted. apply triple_pure. intros Hextracted.
  apply (triple_bind _ _ _ (λ _, inv Items (Forall (free_of x))));
    [by apply (triple_ignore_line Items _ Field)|].
  intros _.
  destruct (if extracted is Some c then Some c else command) as [c|] eqn:Hc';
    [|by intros w Hw].
  assert (c ≠ x) by (destruct extracted; congruence).
  destruct (in_menu c); [by intros w Hw|].
  apply triple_seq_print; [done|]. apply IH. congruence.
Qed.

(** Without the character of the exit command on the input the loop of
    [main] is never left by a return. *)
Lemma triple_main_loop_free Items Field fuel command :
  closed Items (Forall (free_of "6"%char)) Field →
  command ≠ Some "6"%char →
  triple Items (inv Items (Forall (free_of "6"%char)))
    (main_loop fuel command) (λ _ _, False).
Proof.
  intros Hc. revert command.
  induction fuel as [|fuel IH]; intros command Hcommand;
    [by intros w [? _]|].
  cbn [main_loop].
  do 8 (apply triple_seq_print; [done|]).
  apply (triple_bind _ _ _
           (λ c w, inv Items (Forall (free_of "6"%char)) w ∧ c ≠ "6"%char)).
  { intros w Hw.
    by apply (triple_read_command_free Items Field _ _ command Hc). }
  intros c. apply triple_pure. intros Hcmd.
  apply triple_seq_print; [done|].
  apply (triple_bind _ _ _ (λ _, inv Items (Forall (free_of "6"%char))));
    [by intros w Hw|].
  intros _. case_bool_decide; [done|].
  apply (triple_bind _ _ _ (λ _, inv Items (Forall (free_of "6"%char))));
    [by apply (triple_run_command Items _ Field)|].
  intros _. apply triple_seq_print; [done|].
  apply (triple_bind _ _ _ (λ _, inv Items (Forall (free_of "6"%char))));
    [by apply (triple_ignore_line Items _ Field)|].
  intros _.
  apply (triple_bind _ _ _ (λ _, inv Items (Forall (free_of "6"%char))));
    [by intros w Hw|].
  intros _. apply IH. congruence.
Qed.

(** ** The end of the input *)

Lemma add_eof w :
  cin w = [] →
  ∃ w', add w = Ok () w' ∧ todo_items w' = todo_items w ∧ cin w' = [].
Proof.
  intros Hcin. unfold add, bind, print, getline.
  cbn [set_cout todo_items cin failbit cout]. rewrite Hcin.
  destruct (failbit w); eexists; by split_and!.
Qed.

Lemma with_position_eof {A} action (k : Z → io A) w :
  cin w = [] → bind (get_item_position action) k w = Hang (todo_items w).
Proof.
  intros Hcin. unfold bind, get_item_position. by rewrite item_loop_eof.
Qed.

(** At the end of the input no command changes the task list: [add]
    aborts on the empty title, [view] only writes, and the others never
    get a position. *)
Lemma run_command_eof command w :
  cin w = [] →
  post (run_command command) w
    (λ _ w', todo_items w' = todo_items w ∧ cin w' = [])
    (λ items, items = todo_items w) no_fault.
Proof.
  intros Hcin. unfold post, run_command.
  repeat case_bool_decide.
  - by destruct (add_eof w Hcin) as (w' & -> & ? & ?).
  - by destruct (view_state w) as [out ->].
  - unfold mark. by rewrite with_position_eof.
  - unfold edit. by rewrite with_position_eof.
  - unfold remove. by rewrite with_position_eof.
  - done.
Qed.

Lemma read_command_eof fuel command w :
  cin w = [] → in_menu command = true →
  ∃ w', read_command (S fuel) (Some command) w = Ok command w'
    ∧ todo_items w' = todo_items w ∧ cin w' = [].
Proof.
  intros Hcin Hmenu. cbn [read_command].
  unfold bind, extract_char, ignore_line. rewrite Hcin.
  destruct (failbit w) eqn:Hfail; simpl; rewrite ?Hfail, Hmenu;
    eexists; by split_and!.
Qed.

Lemma ignore_line_drop w : ignore_line w = Ok () (drop_line w).
Proof. unfold ignore_line, drop_line. by destruct (failbit w). Qed.

(** One round of the loop of [main]. *)
Lemma main_loop_step fuel command w :
  main_loop (S fuel) command w =
  match read_command (S (length (cin w))) command
          (set_cout (cout w ++ menu) w) with
  | Ok c w1 =>
      if bool_decide (c = "6"%char) then
        Ok (0, save_data (todo_items w1))
          (drop_line
             (set_cout
                (cout w1
                 ++ [[];
                     str "Thanks for using the application, have a nice day!";
                     str "Press enter to exit ..."]) w1))
      else
        match run_command c (set_cout (cout w1 ++ [[]]) w1) with
        | Ok _ w2 =>
            main_loop fuel (Some c)
              (drop_line
                 (set_cout
                    (cout w2 ++ [newline :: str "Press enter to continue ..."])
                    w2))
        | Hang items => Hang items
        | Fault e => Fault e
        end
  | Hang items => Hang items
  | Fault e => Fault e
  end.
Proof.
  cbn [main_loop]. unfold bind at 1 2 3 4 5 6 7 8, print.
  cbn [set_cout todo_items cin failbit cout]. unfold bind at 1.
  cbn [set_cout todo_items cin failbit cout]. unfold menu.
  rewrite <- !app_assoc. cbn [app].
  destruct (read_command _ _ _) as [c w1|items|e]; [|done..].
  unfold bind at 1 2, system_clear at 1, ret at 1.
  case_bool_decide.
  - unfold bind, write_save_file, system_clear, ret. rewrite ignore_line_drop.
    cbn [set_cout todo_items cin failbit cout].
    rewrite <- !app_assoc. done.
  - unfold bind at 1.
    destruct (run_command _ _) as [[] w2|items|e]; [|done..].
    unfold bind, system_clear, ret. by rewrite ignore_line_drop.
Qed.

(** With a command of the menu other than the exit in hand and no input
    left, the loop of [main] goes round for ever and the task list stays
    as it is. *)
Lemma main_loop_eof fuel command w :
  cin w = [] → in_menu command = true → command ≠ "6"%char →
  main_loop fuel (Some command) w = Hang (todo_items w).
Proof using.
  intros Hcin Hmenu Hcommand. revert w Hcin.
  induction fuel as [|fuel IH]; intros w Hcin; [done|].
  cbn [main_loop]. unfold bind at 1 2 3 4 5 6 7 8, print.
  cbn [set_cout todo_items cin failbit cout]. unfold bind at 1.
  cbn [set_cout todo_items cin failbit cout].
  match goal with
  | |- context [read_command _ _ ?w0] =>
      destruct (read_command_eof (length (cin w)) command w0 Hcin Hmenu)
        as (w1 & -> & Hitems1 & Hcin1)
  end.
  cbn [set_cout todo_items] in Hitems1.
  unfold bind at 1 2, system_clear at 1, ret at 1.
  rewrite bool_decide_eq_false_2 by done.
  unfold bind at 1.
  match goal with
  | |- context [run_command _ ?w0] =>
      pose proof (run_command_eof command w0 Hcin1) as Hrun;
      unfold post in Hrun; destruct (run_command command w0) as [[] w2|items|e]
  end; [|by rewrite Hrun, <- Hitems1|done].
  destruct Hrun as [Hitems2 Hcin2]. cbn [set_cout todo_items] in Hitems2.
  unfold bind, ignore_line, system_clear, ret.
  cbn [set_cout todo_items cin failbit cout].
  destruct (failbit w2).
  - rewrite IH by done. simpl. congruence.
  - rewrite IH by (simpl; by rewrite Hcin2). simpl. congruence.
Qed.

(** ** The bound on the rounds of [main] *)

Lemma closed_shorter n : closed (λ _, True) (shorter n) (λ _, True).
Proof using.
  split; try done.
  - by left.
  - intros l ls [?|Hlen]; [done|]. right. simpl in Hlen. lia.
  - intros l l' ls [?|Hlen] _; [done|]. by right.
Qed.

(** A command read took a line from the input, unless none was left. *)
Lemma read_command_shorter fuel command w :
  (failbit w = true → cin w = []) →
  post (read_command fuel command) w
    (λ c w', in_menu c = true
             ∧ inv (λ _, True) (shorter (length (cin w))) w')
    (λ _, True) (λ _, True).
Proof.
  intros Hdead. destruct fuel as [|fuel]; [done|]. cbn [read_command].
  set (n := length (cin w)).
  assert (post (extracted ← extract_char; ignore_line;; ret extracted) w
            (λ _, inv (λ _, True) (shorter n)) (λ _, True) (λ _, True))
    as Hfirst.
  { unfold post, bind, extract_char, ignore_line, ret.
    destruct (failbit w) eqn:Hfail.
    { rewrite Hfail. unfold inv.
      split_and!; [done|left; by apply Hdead|intros _; by apply Hdead]. }
    pose proof (skip_lines_length (cin w)) as Hlen. fold n in Hlen.
    destruct (skip_lines (cin w)) as [|[|c l] rest]; simpl;
      rewrite ?Hfail; unfold inv; simpl.
    - split_and!; [done|by left|done].
    - split_and!; [done|by left|done].
    - split_and!; [done| |congruence]. right. simpl in Hlen. lia. }
  revert Hfirst. unfold post, bind at 1 2 3 4. unfold ret at 1.
  destruct (extract_char w) as [extracted w1|items|e]; [|done..].
  destruct (ignore_line w1) as [[] w2|items|e]; [|done..].
  intros Hinv.
  destruct (if extracted is Some c then Some c else command) as [c|]; [|done].
  destruct (in_menu c) eqn:Hmenu; [done|].
  unfold bind, print.
  pose proof (triple_read_command (λ _, True) (shorter n) (λ _, True)
                fuel (Some c) (closed_shorter n)
                (set_cout
                   (cout w2
                    ++ [str "Invalid input. Please enter a number within range 1-6: "])
                   w2) Hinv) as Hrest.
  unfold post in Hrest. destruct (read_command _ _ _); [|done..].
  by destruct Hrest.
Qed.

(** More rounds than the input has lines are never used up, except in
    the loop that goes on for ever: allowing more of them gives the same
    outcome. *)
Lemma main_loop_fuel fuel1 fuel2 command w :
  (failbit w = true → cin w = []) →
  (length (cin w) < fuel1)%nat → (length (cin w) < fuel2)%nat →
  main_loop fuel1 command w = main_loop fuel2 command w.
Proof.
  revert fuel2 command w.
  induction fuel1 as [|fuel1 IH]; intros fuel2 command w Hdead H1 H2; [lia|].
  destruct fuel2 as [|fuel2]; [lia|]. rewrite !main_loop_step.
  pose proof (read_command_shorter (S (length (cin w))) command
                (set_cout (cout w ++ menu) w) Hdead) as Hread.
  unfold post in Hread. cbn [set_cout cin] in Hread.
  destruct (read_command _ _ _) as [c w1|items|e]; [|done..].
  destruct Hread as [Hmenu Hinv1].
  case_bool_decide; [done|].
  pose proof (triple_run_command (λ _, True) (shorter (length (cin w)))
                (λ _, True) c (closed_shorter _)
                (set_cout (cout w1 ++ [[]]) w1) Hinv1) as Hrun.
  unfold post in Hrun.
  destruct (run_command _ _) as [[] w2|items|e]; [|done..].
  pose proof (triple_ignore_line (λ _, True) (shorter (length (cin w)))
                (λ _, True) (closed_shorter _)
                (set_cout
                   (cout w2 ++ [newline :: str "Press enter to continue ..."])
                   w2) Hrun) as Hdrop.
  unfold post in Hdrop. rewrite ignore_line_drop in Hdrop.
  destruct Hdrop as (_ & [Heof|Hlen] & Hdead3).
  - by rewrite !main_loop_eof.
  - apply IH; [done|lia..].
Qed.

(** ** Sessions without the exit command *)

Lemma skip_space_nil s : skip_space s = [] → blank s.
Proof.
  induction s as [|c s IH]; simpl; [by constructor|].
  destruct (isspace c) eqn:Hc; [|done]. intros Hs.
  apply Forall_cons. split; [done|by apply IH].
Qed.

Lemma skip_lines_not_blank ls :
  ¬ Forall blank ls → ∃ c l rest, skip_lines ls = (c :: l) :: rest.
Proof.
  induction ls as [|l0 ls IH]; intros Hblank; simpl.
  { by destruct Hblank. }
  destruct (skip_space l0) as [|c l] eqn:Hl0; [|by eauto].
  apply IH. intros Hls. apply Hblank. constructor; [|done].
  by apply skip_space_nil.
Qed.

(** With a command in hand, or a character that is not white space on
    the input, the command tested was written before. *)
Lemma read_command_defined fuel command w :
  (command = None → failbit w = false ∧ ¬ Forall blank (cin w)) →
  post (read_command fuel command) w (λ _ _, True) (λ _, True) no_fault.
Proof.
  revert command w. induction fuel as [|fuel IH]; intros command w Hfirst;
    [done|].
  cbn [read_command]. unfold post, bind at 1.
  assert (∃ extracted w1,
            extract_char w = Ok extracted w1
            ∧ (command = None → extracted ≠ None)) as (extracted & w1 & -> & Hex).
  { unfold extract_char. destruct command as [c|].
    - destruct (failbit w); [by eauto|].
      destruct (skip_lines (cin w)) as [|[|c' l] rest]; by eauto.
    - destruct Hfirst as [-> Hblank]; [done|].
      destruct (skip_lines_not_blank _ Hblank) as (c & l & rest & ->).
      by eauto. }
  unfold bind at 1. rewrite ignore_line_drop.
  destruct (if extracted is Some c then Some c else command) as [c|] eqn:Hc.
  - destruct (in_menu c); [done|]. unfold bind, print. by apply IH.
  - destruct extracted; [done|]. by destruct Hex.
Qed.

(** No command but [remove] reads a variable that was never written. *)
Lemma run_command_defined command w :
  command ≠ "5"%char →
  post (run_command command) w (λ _ _, True) (λ _, True) no_fault.
Proof.
  intros Hcommand. unfold run_command. repeat case_bool_decide; [..|done].
  - eapply post_weaken; [apply add_post|done..].
  - unfold post. by destruct (view_state w) as [out ->].
  - eapply post_weaken; [apply mark_post|done..].
  - eapply post_weaken; [apply edit_post|done..].
  - done.
Qed.

(** Without the characters 5 and 6 on the input, and with a command in
    hand or a character to read, the loop of [main] is left neither by a
    return nor by the read of a variable never written. *)
Lemma main_loop_spins fuel command w :
  inv (λ _, True) (Forall (free_of "5"%char)) w →
  inv (λ _, True) (Forall (free_of "6"%char)) w →
  command ≠ Some "5"%char → command ≠ Some "6"%char →
  (command = None → failbit w = false ∧ ¬ Forall blank (cin w)) →
  ∃ items, main_loop fuel command w = Hang items.
Proof.
  revert command w.
  induction fuel as [|fuel IH]; intros command w Hinv5 Hinv6 Hc5 Hc6 Hfirst;
    [by eexists|].
  rewrite main_loop_step.
  pose proof (triple_read_command_free (λ _, True) (λ _, True) _
                (S (length (cin w))) command (closed_free_of _) Hc5
                (set_cout (cout w ++ menu) w) Hinv5) as Hread5.
  pose proof (triple_read_command_free (λ _, True) (λ _, True) _
                (S (length (cin w))) command (closed_free_of _) Hc6
                (set_cout (cout w ++ menu) w) Hinv6) as Hread6.
  pose proof (read_command_defined (S (length (cin w))) command
                (set_cout (cout w ++ menu) w) Hfirst) as Hdefined.
  unfold post in Hread5, Hread6, Hdefined.
  destruct (read_command _ _ _) as [c w1|items|e]; [|by eexists|done].
  destruct Hread5 as [Hinv5' Hne5]. destruct Hread6 as [Hinv6' Hne6].
  rewrite bool_decide_eq_false_2 by done.
  pose proof (triple_run_command (λ _, True) _ (λ _, True) c
                (closed_free_of "5"%char)
                (set_cout (cout w1 ++ [[]]) w1) Hinv5') as Hrun5.
  pose proof (triple_run_command (λ _, True) _ (λ _, True) c
                (closed_free_of "6"%char)
                (set_cout (cout w1 ++ [[]]) w1) Hinv6') as Hrun6.
  pose proof (run_command_defined c (set_cout (cout w1 ++ [[]]) w1) Hne5)
    as Hrun.
  unfold post in Hrun5, Hrun6, Hrun.
  destruct (run_command _ _) as [[] w2|items|e]; [|by eexists|done].
  pose proof (triple_ignore_line (λ _, True) _ (λ _, True)
                (closed_free_of "5"%char)
                (set_cout
                   (cout w2 ++ [newline :: str "Press enter to continue ..."])
                   w2) Hrun5) as Hdrop5.
  pose proof (triple_ignore_line (λ _, True) _ (λ _, True)
                (closed_free_of "6"%char)
                (set_cout
                   (cout w2 ++ [newline :: str "Press enter to continue ..."])
                   w2) Hrun6) as Hdrop6.
  unfold post in Hdrop5, Hdrop6. rewrite ignore_line_drop in Hdrop5, Hdrop6.
  apply IH; [done|done|congruence|congruence|done].
Qed.

(** X18: the exit command is the only way out of [main] that the
    language defines.  When no line of the input holds the character 6, a
    run of [main] either goes on for ever or reads a variable that was
    never written, after which its behaviour is undefined; it neither
    returns nor indexes the vector out of bounds.  When moreover some
    character of the input is not white space and no line holds the
    character 5, so that a command is read and [remove] is never called,
    the run goes on for ever. *)
Theorem no_exit_without_six file input :
  Forall (free_of "6"%char) input →
  (main file input = Fault Uninitialised ∨ ∃ items, main file input = Hang items)
  ∧ (¬ Forall blank input → Forall (free_of "5"%char) input →
     ∃ items, main file input = Hang items).
Proof using.
  intros Hinput. rewrite main_initial. split.
  - pose proof (triple_main_loop_free (λ _, True) (λ _, True)
                  (S (length input)) None
                  (closed_free_of _) ltac:(done) (initial file input)) as Hloop.
    unfold post in Hloop.
    destruct (main_loop _ _ _) as [r w'|items|e].
    + by destruct Hloop.
    + right. by eexists.
    + left. rewrite Hloop; done.
  - intros Hblank Hfive. by apply main_loop_spins.
Qed.

(** X19: once the input has ended no command changes the task list, and
    with a command of the menu other than the exit in hand [main] never
    returns and never saves: its loop goes round for ever and the list
    stays as it is. *)
Theorem end_of_input_never_exits command w :
  cin w = [] →
  post (run_command command) w
    (λ _ w', todo_items w' = todo_items w ∧ cin w' = [])
    (λ items, items = todo_items w) no_fault
  ∧ (in_menu command = true → command ≠ "6"%char →
     ∀ fuel, main_loop fuel (Some command) w = Hang (todo_items w)).
Proof using.
  intros Hcin. split; [by apply run_command_eof|].
  intros Hmenu Hcommand fuel. by apply main_loop_eof.
Qed.

(** X20: every round of the loop of [main] takes at least one line from
    the input until none is left, so one round more than the input has
    lines decides the outcome: running [main] with more rounds allowed
    gives the same result. *)
Theorem main_rounds_enough file input fuel :
  (length input < fuel)%nat →
  main_loop fuel None (initial file input) = main file input.
Proof using.
  intros Hfuel. rewrite main_initial.
  apply main_loop_fuel; simpl; (done || lia).
Qed.

End Program.

(** * Instances

    The statements above hold for every conversion of the scanned number
    that stores an [int] and keeps the numbers that fit.  [wrap_int] is
    one, and with it each statement is run on a concrete input. *)

Lemma wrap_int_range n : in_int (wrap_int n).
Proof. unfold in_int, INT_MIN, INT_MAX, wrap_int. div_lia. Qed.

Lemma wrap_int_exact n : in_int n → wrap_int n = n.
Proof. unfold in_int, INT_MIN, INT_MAX, wrap_int. intros. div_lia. Qed.

Lemma is_valid_date_rule_witness :
  sscanf_date wrap_int (str " 29 / 2 /2024 trailing") = (3, [29; 2; 2024])
  ∧ (is_valid_date wrap_int (str " 29 / 2 /2024 trailing") = true
     ↔ 1 <= 2024 ∧ 1 <= 2 <= 12 ∧ 1 <= 29
       ∧ 29 <= spec_days_in_month 2 2024).
Proof.
  split; [reflexivity|].
  apply (proj1 (is_valid_date_rule wrap_int wrap_int_exact)
           (str " 29 / 2 /2024 trailing") 29 2 2024).
  reflexivity.
Defined.

Lemma mark_three_outcomes_witness :
  next_entry (session [milk; taxes] [str " 1"; str "next"])
  = Number 1 [str "next"]
  ∧ mark (session [milk; taxes] [str " 1"; str "next"])
    = Ok () {| todo_items :=
                 [{| title := str "Buy milk"; description := str "2%";
                     due_date := str "5/3/2025"; completed := true |};
                  taxes];
               cin := [str "next"]; failbit := false;
               cout := [prompt (str "mark");
                        str "Task marked as completed."] |}.
Proof.
  split; [reflexivity|].
  destruct (mark_three_outcomes
              (session [milk; taxes] [str " 1"; str "next"])
              1 [str "next"] eq_refl) as [(_ & _ & _ & _ & Hmark & _) _].
  exact Hmark.
Defined.

Lemma remove_shifts_down_witness :
  next_entry (session [milk; taxes; call] [str "2"; str "Y"])
  = Number 2 [str "Y"]
  ∧ 1 <= 2 <= Z.of_nat (length [milk; taxes; call])
  ∧ next_char [str "Y"] = Some ("Y"%char, [])
  ∧ confirms "Y" = true
  ∧ ∃ w', remove (session [milk; taxes; call] [str "2"; str "Y"]) = Ok () w'
      ∧ todo_items w' = [milk; call].
Proof.
  split_and!; [reflexivity|simpl; lia..|reflexivity|reflexivity|].
  destruct (proj1 remove_shifts_down
              (session [milk; taxes; call] [str "2"; str "Y"])
              2 [str "Y"] "Y"%char [] eq_refl ltac:(simpl; lia) eq_refl eq_refl)
    as (w' & Hrun & Hitems & _).
  exists w'. split; [exact Hrun|exact Hitems].
Defined.

Lemma remove_needs_confirmation_witness :
  next_entry (session [milk; taxes] [str "2"; str " no"; str "next"])
  = Number 2 [str " no"; str "next"]
  ∧ 1 <= 2 <= Z.of_nat (length [milk; taxes])
  ∧ next_char [str " no"; str "next"] = Some ("n"%char, [str "next"])
  ∧ ∃ w', remove (session [milk; taxes] [str "2"; str " no"; str "next"])
          = Ok () w'
      ∧ todo_items w' = [milk; taxes].
Proof.
  split_and!; [reflexivity|simpl; lia..|reflexivity|].
  destruct (remove_needs_confirmation
              (session [milk; taxes] [str "2"; str " no"; str "next"])
              2 [str " no"; str "next"] "n"%char [str "next"]
              eq_refl ltac:(simpl; lia) eq_refl)
    as (w' & Hrun & _ & Hkeep & _).
  exists w'. split; [exact Hrun|]. apply Hkeep. split; discriminate.
Defined.

Lemma add_edit_all_or_nothing_witness :
  failbit (session [milk] [[]; str "next"]) = false
  ∧ cin (session [milk] [[]; str "next"]) = [] :: [str "next"]
  ∧ ∃ w', add wrap_int (session [milk] [[]; str "next"]) = Ok () w'
      ∧ todo_items w' = [milk].
Proof.
  split_and!; [reflexivity..|].
  exact (proj1 (proj2 (proj2 (add_edit_all_or_nothing wrap_int
                                (session [milk] [[]; str "next"]))))
           [str "next"] eq_refl eq_refl).
Defined.

Lemma positions_in_bounds_witness :
  next_entry (session [milk; taxes] [str "x"; str "2"]) = NotNumber [str "2"]
  ∧ (length (cin (session [milk; taxes] [str "x"; str "2"])) < 7)%nat
  ∧ get_item_position_loop 7 (str "edit")
      (session [milk; taxes] [str "x"; str "2"])
    = get_item_position (str "edit")
        (session [milk; taxes] [str "x"; str "2"]).
Proof.
  split_and!; [reflexivity|simpl; lia|].
  apply (proj1 (proj2 (positions_in_bounds wrap_int))). simpl. lia.
Defined.

Lemma stored_dates_canonical_witness :
  add wrap_int
    (session [milk] [str "Call"; str "the bank"; str "1 /12/ 2026"])
  = Ok () {| todo_items := [milk; call]; cin := []; failbit := false;
             cout := [str "Enter task details (Empty to abort operation): ";
                      str "Title: "; str "Description: ";
                      str "Due Date (DD/MM/YYYY): ";
                      str "Task added successfully"] |}
  ∧ ([milk; call] = [milk]
     ∨ ∃ task, [milk; call] = [milk] ++ [task]
         ∧ date_ok wrap_int (due_date task)).
Proof.
  split; [reflexivity|].
  exact (proj1 (stored_dates_canonical wrap_int wrap_int_range wrap_int_exact)
           (session [milk] [str "Call"; str "the bank"; str "1 /12/ 2026"])
           _ eq_refl).
Defined.

Lemma save_retrieve_roundtrip_witness :
  Forall quote_free [milk; taxes; call]
  ∧ Forall newline_free [milk; taxes; call]
  ∧ retrieve_data (Some (save_data [milk; taxes; call]))
    = [milk; taxes; call].
Proof.
  assert (Forall quote_free [milk; taxes; call]) as Hquote
    by (by apply (bool_decide_unpack _); vm_compute).
  assert (Forall newline_free [milk; taxes; call]) as Hnewline
    by (by apply (bool_decide_unpack _); vm_compute).
  split_and!; [exact Hquote|exact Hnewline|].
  exact (save_retrieve_roundtrip [milk; taxes; call] Hquote Hnewline).
Defined.

Lemma unmatched_line_gives_empty_record_witness :
  file_lines (record_line milk ++ newline :: str "milk,2%,5/3/2025,0")
    !! 1%nat = Some (str "milk,2%,5/3/2025,0")
  ∧ regex_search pattern (str "milk,2%,5/3/2025,0") = []
  ∧ retrieve_data
      (Some (record_line milk ++ newline :: str "milk,2%,5/3/2025,0"))
    !! 1%nat
    = Some {| title := []; description := []; due_date := [];
              completed := false |}.
Proof.
  split_and!; [reflexivity..|].
  exact (proj1 (proj2 (unmatched_line_gives_empty_record
                  (record_line milk ++ newline :: str "milk,2%,5/3/2025,0")
                  1 (str "milk,2%,5/3/2025,0") eq_refl eq_refl))).
Defined.

(** The scenario of the specification: a date typed with spaces is stored
    in canonical form, and saving then loading shows the same record. *)
Lemma buy_milk_scenario :
  ∃ w', add wrap_int
          (session [] [str "Buy milk"; str "2%"; str " 5 / 3 /2025 "])
        = Ok () w'
    ∧ todo_items w' = [milk]
    ∧ retrieve_data (Some (save_data (todo_items w'))) = [milk].
Proof. eexists. split; [reflexivity|]. split; reflexivity. Qed.

Lemma parse_line_lenient_witness :
  free_of dquote (str "# ") ∧ quote_free milk
  ∧ parse_line (str "# " ++ record_line milk ++ str " trailing") = milk.
Proof.
  assert (free_of dquote (str "# ")) as Hbefore
    by (by apply (bool_decide_unpack _); vm_compute).
  assert (quote_free milk) as Hitem
    by (by apply (bool_decide_unpack _); vm_compute).
  split_and!; [exact Hbefore|exact Hitem|].
  exact (parse_line_lenient (str "# ") milk (str " trailing") Hbefore Hitem).
Defined.

Lemma date_layout_ignored_witness :
  blank (str " ") ∧ no_digit_ahead (str " or so")
  ∧ in_int 29 ∧ in_int 2 ∧ in_int 2024
  ∧ (is_valid_date wrap_int (str " 29 / 2/2024 or so") = true
     ↔ 1 <= 2024 ∧ 1 <= 2 <= 12 ∧ 1 <= 29
       ∧ 29 <= spec_days_in_month 2 2024).
Proof.
  assert (blank (str " ")) as Hblank by (by repeat constructor).
  assert (blank []) as Hnone by constructor.
  assert (no_digit_ahead (str " or so")) as Hbehind
    by (intros c tl [= <- _]; reflexivity).
  assert (in_int 29 ∧ in_int 2 ∧ in_int 2024) as (Hd & Hm & Hy)
    by (unfold in_int, INT_MIN, INT_MAX; lia).
  split_and!; [exact Hblank|exact Hbehind|exact Hd|exact Hm|exact Hy|].
  exact (proj2 (proj2 (date_layout_ignored wrap_int wrap_int_exact
                         (str " ") (str " ") (str " ") [] []
                         29 2 2024 (str " or so")
                         Hblank Hblank Hblank Hnone Hnone Hbehind
                         ltac:(lia) ltac:(lia) ltac:(lia) Hd Hm Hy))).
Defined.

Lemma get_date_input_first_valid_witness :
  Forall (λ l, is_valid_date wrap_int l = false)
    [str "tomorrow"; str "31/4/2025"]
  ∧ is_valid_date wrap_int (str "1 /5 /2025") = true
  ∧ ∃ result,
      canonical_date wrap_int (str "1 /5 /2025") = Some result
      ∧ get_date_input wrap_int
          (session [milk]
             [str "tomorrow"; str "31/4/2025"; str "1 /5 /2025"; str "next"])
        = Ok result
            {| todo_items := [milk]; cin := [str "next"]; failbit := false;
               cout := [str "Please enter a valid date: ";
                        str "Please enter a valid date: "] |}.
Proof.
  assert (Forall (λ l, is_valid_date wrap_int l = false)
            [str "tomorrow"; str "31/4/2025"]) as Hbad
    by (repeat constructor).
  split_and!; [exact Hbad|reflexivity|].
  exact (get_date_input_first_valid wrap_int
           (session [milk]
              [str "tomorrow"; str "31/4/2025"; str "1 /5 /2025"; str "next"])
           [str "tomorrow"; str "31/4/2025"] (str "1 /5 /2025") [str "next"]
           eq_refl eq_refl Hbad eq_refl).
Defined.

Lemma add_appends_witness :
  Forall (λ l, is_valid_date wrap_int l = false) [str "soon"]
  ∧ canonical_date wrap_int (str "1 /12/ 2026") = Some (str "1/12/2026")
  ∧ add wrap_int
      (session [milk]
         [str "Call"; str "the bank"; str "soon"; str "1 /12/ 2026";
          str "next"])
    = Ok () {| todo_items := [milk; call]; cin := [str "next"];
               failbit := false;
               cout := [str "Enter task details (Empty to abort operation): ";
                        str "Title: "; str "Description: ";
                        str "Due Date (DD/MM/YYYY): ";
                        str "Please enter a valid date: ";
                        str "Task added successfully"] |}.
Proof.
  assert (Forall (λ l, is_valid_date wrap_int l = false) [str "soon"]) as Hbad
    by (repeat constructor).
  split_and!; [exact Hbad|reflexivity|].
  exact (add_appends wrap_int
           (session [milk]
              [str "Call"; str "the bank"; str "soon"; str "1 /12/ 2026";
               str "next"])
           (str "Call") (str "the bank") [str "soon"] (str "1 /12/ 2026")
           [str "next"] (str "1/12/2026")
           eq_refl eq_refl ltac:(discriminate) Hbad eq_refl eq_refl).
Defined.

Lemma edit_replaces_witness :
  next_entry
    (session [milk; taxes]
       [str "2"; str "Taxes"; str "all forms"; str "30/2/2025";
        str "1/3/2025"; str "next"])
  = Number 2 [str "Taxes"; str "all forms"; str "30/2/2025"; str "1/3/2025";
              str "next"]
  ∧ Forall (λ l, is_valid_date wrap_int l = false) [str "30/2/2025"]
  ∧ ∃ w',
      edit wrap_int
        (session [milk; taxes]
           [str "2"; str "Taxes"; str "all forms"; str "30/2/2025";
            str "1/3/2025"; str "next"])
      = Ok () w'
      ∧ todo_items w'
        = [milk; {| title := str "Taxes"; description := str "all forms";
                    due_date := str "1/3/2025"; completed := true |}]
      ∧ cin w' = [str "next"].
Proof.
  assert (Forall (λ l, is_valid_date wrap_int l = false) [str "30/2/2025"])
    as Hbad by (repeat constructor).
  split_and!; [reflexivity|exact Hbad|].
  eexists. split_and!;
    [exact (proj1 (edit_replaces wrap_int
                     (session [milk; taxes]
                        [str "2"; str "Taxes"; str "all forms";
                         str "30/2/2025"; str "1/3/2025"; str "next"])
                     2 taxes (str "Taxes") (str "all forms")
                     [str "30/2/2025"] (str "1/3/2025") [str "next"]
                     (str "1/3/2025")
                     eq_refl ltac:(simpl; lia) eq_refl ltac:(discriminate)
                     Hbad eq_refl eq_refl))
    |reflexivity..].
Defined.

Lemma mark_twice_witness :
  next_entry (session [milk; taxes] [str "1"; str "1"; str "next"])
  = Number 1 [str "1"; str "next"]
  ∧ ∃ w1 w2,
      mark (session [milk; taxes] [str "1"; str "1"; str "next"]) = Ok () w1
      ∧ mark w1 = Ok () w2
      ∧ todo_items w1 = [with_completed true milk; taxes]
      ∧ todo_items w2 = todo_items w1
      ∧ last (cout w2) = Some (str "Task is already marked as completed.").
Proof.
  split; [reflexivity|].
  exact (mark_twice (session [milk; taxes] [str "1"; str "1"; str "next"])
           1 [str "1"; str "next"] [str "next"] milk
           eq_refl eq_refl ltac:(simpl; lia) eq_refl).
Defined.

Lemma remove_without_confirmation_witness :
  next_entry (session [milk] [str "1"; str "  "; []]) = Number 1 [str "  "; []]
  ∧ Forall blank [str "  "; []]
  ∧ remove (session [milk] [str "1"; str "  "; []]) = Fault Uninitialised.
Proof.
  assert (Forall blank [str "  "; []]) as Hblank
    by (by repeat constructor).
  split_and!; [reflexivity|exact Hblank|].
  exact (remove_without_confirmation
           (session [milk] [str "1"; str "  "; []]) 1 [str "  "; []]
           eq_refl ltac:(simpl; lia) Hblank).
Defined.

Lemma zero_aborts_witness :
  next_entry (session [milk] [str "0"; str "next"]) = Number 0 [str "next"]
  ∧ edit wrap_int (session [milk] [str "0"; str "next"])
    = Ok () {| todo_items := [milk]; cin := [str "next"]; failbit := false;
               cout := [prompt (str "edit"); str "Abort task."] |}.
Proof.
  split; [reflexivity|].
  exact (proj1 (proj2 (zero_aborts wrap_int
                         (session [milk] [str "0"; str "next"])
                         [str "next"] eq_refl))).
Defined.

Lemma view_lists_all_witness :
  Z.of_nat (length (todo_items (session [milk; taxes] []))) <= INT_MAX
  ∧ ∃ out,
      view (session [milk; taxes] [])
      = Ok () (set_cout (str "All Tasks" :: out) (session [milk; taxes] []))
      ∧ out !! 7%nat = Some (str "2  ")
      ∧ out !! 8%nat = Some (str "Title: Taxes, forms").
Proof.
  assert (Z.of_nat (length (todo_items (session [milk; taxes] [])))
          <= INT_MAX) as Hsize by (unfold INT_MAX; simpl; lia).
  split; [exact Hsize|].
  destruct (view_lists_all (session [milk; taxes] []) Hsize)
    as (out & Hview & _ & Hout).
  exists out. split; [exact Hview|].
  destruct (Hout 1%nat taxes eq_refl) as (_ & Hnumber & Htitle & _).
  split; [exact Hnumber|exact Htitle].
Defined.

Lemma shown_number_selects_witness :
  Z.of_nat (length (todo_items (session [milk; taxes] [str "2  "; str "next"])))
  <= INT_MAX
  ∧ printf_d3 (Z.of_nat 1 + 1) = str "2  "
  ∧ get_item_position (str "edit")
      (session [milk; taxes] [str "2  "; str "next"])
    = Ok 1 {| todo_items := [milk; taxes]; cin := [str "next"];
              failbit := false; cout := [prompt (str "edit")] |}.
Proof.
  assert (Z.of_nat
            (length (todo_items
                       (session [milk; taxes] [str "2  "; str "next"])))
          <= INT_MAX) as Hsize by (unfold INT_MAX; simpl; lia).
  split_and!; [exact Hsize|reflexivity|].
  exact (shown_number_selects (str "edit")
           (session [milk; taxes] [str "2  "; str "next"]) 1 taxes
           [str "next"] eq_refl Hsize eq_refl eq_refl).
Defined.

Lemma saved_session_reloads_witness :
  Forall clean_line errand
  ∧ (∃ w', main wrap_int (Some (save_data [milk])) errand
           = Ok (0, save_data [milk; call]) w')
  ∧ retrieve_data (Some (save_data [milk; call])) = [milk; call].
Proof.
  assert (Forall clean_line errand) as Hclean
    by (by apply (bool_decide_unpack _); vm_compute).
  assert (∃ w', main wrap_int (Some (save_data [milk])) errand
                = Ok (0, save_data [milk; call]) w'
                ∧ todo_items w' = [milk; call]) as (w' & Hrun & Hitems)
    by (eexists; split; vm_compute; reflexivity).
  split_and!; [exact Hclean|by exists w'|].
  transitivity (todo_items w'); [|exact Hitems].
  exact (proj2 (proj2 (saved_session_reloads wrap_int _ _ _ _ _ Hclean Hrun))).
Defined.

Lemma session_keeps_dates_witness :
  dates_ok wrap_int (retrieve_data (Some (save_data [milk; taxes])))
  ∧ match main wrap_int (Some (save_data [milk; taxes])) errand with
    | Ok _ w' => dates_ok wrap_int (todo_items w')
    | Hang items => dates_ok wrap_int items
    | Fault _ => True
    end.
Proof.
  assert (dates_ok wrap_int (retrieve_data (Some (save_data [milk; taxes]))))
    as Hfile by (by repeat constructor).
  split; [exact Hfile|].
  exact (session_keeps_dates wrap_int wrap_int_range wrap_int_exact
           (Some (save_data [milk; taxes])) errand Hfile).
Defined.

Lemma exit_at_once_witness :
  skip_lines [str "  "; str " 6 now"; str "rest"; str "more"]
  = str "6 now" :: [str "rest"; str "more"]
  ∧ ∃ w',
      main wrap_int (Some (save_data [milk; taxes]))
        [str "  "; str " 6 now"; str "rest"; str "more"]
      = Ok (0, save_data (retrieve_data (Some (save_data [milk; taxes])))) w'
      ∧ todo_items w' = retrieve_data (Some (save_data [milk; taxes]))
      ∧ cin w' = [str "more"].
Proof.
  split; [reflexivity|].
  exact (exit_at_once wrap_int (Some (save_data [milk; taxes]))
           [str "  "; str " 6 now"; str "rest"; str "more"]
           (str " now") [str "rest"; str "more"] eq_refl).
Defined.

Lemma blank_input_faults_witness :
  Forall blank [str "  "; []]
  ∧ main wrap_int None [str "  "; []] = Fault Uninitialised.
Proof.
  assert (Forall blank [str "  "; []]) as Hblank by (by repeat constructor).
  split; [exact Hblank|].
  exact (blank_input_faults wrap_int None [str "  "; []] Hblank).
Defined.

Lemma no_exit_without_six_witness :
  Forall (free_of "6"%char) [str "2"; []; str "quit"]
  ∧ ¬ Forall blank [str "2"; []; str "quit"]
  ∧ Forall (free_of "5"%char) [str "2"; []; str "quit"]
  ∧ ∃ items, main wrap_int None [str "2"; []; str "quit"] = Hang items.
Proof.
  assert (Forall (free_of "6"%char) [str "2"; []; str "quit"]) as Hsix
    by (by apply (bool_decide_unpack _); vm_compute).
  assert (Forall (free_of "5"%char) [str "2"; []; str "quit"]) as Hfive
    by (by apply (bool_decide_unpack _); vm_compute).
  assert (¬ Forall blank [str "2"; []; str "quit"]) as Hblank.
  { intros [Hline _]%Forall_cons. apply Forall_cons in Hline as [Hchar _].
    vm_compute in Hchar. discriminate Hchar. }
  split_and!; [exact Hsix|exact Hblank|exact Hfive|].
  exact (proj2 (no_exit_without_six wrap_int None [str "2"; []; str "quit"]
                  Hsix) Hblank Hfive).
Defined.

Lemma end_of_input_never_exits_witness :
  cin (session [milk] []) = []
  ∧ in_menu "2" = true
  ∧ main_loop wrap_int 5 (Some "2"%char) (session [milk] []) = Hang [milk].
Proof.
  split_and!; [reflexivity..|].
  exact (proj2 (end_of_input_never_exits wrap_int "2"%char
                  (session [milk] []) eq_refl)
           eq_refl ltac:(discriminate) 5%nat).
Defined.

Lemma main_rounds_enough_witness :
  (length [str "2"; []] < 9)%nat
  ∧ main_loop wrap_int 9 None (initial None [str "2"; []])
    = main wrap_int None [str "2"; []].
Proof.
  assert (length [str "2"; []] < 9)%nat as Hfuel by (simpl; lia).
  split; [exact Hfuel|].
  exact (main_rounds_enough wrap_int None [str "2"; []] 9 Hfuel).
Defined.
